(** * C-Poker-AI: the Monte Carlo decision engine

    A shallow embedding of [action.c] and [pokerai.c]:
    the action value and its string encoding, the swap-with-last deck
    sampler, the single-game simulator, the Monte Carlo worker loop, the
    aggregation of the worker tallies and the threshold decision policy. *)

From Stdlib Require Import ZArith QArith Qround Qpower Lia Bool.
From Stdlib Require Import String Ascii DecimalString DecimalZ.
From Stdlib Require Import Floats.SpecFloat.
From stdpp Require Import base list.

Local Open Scope Z_scope.

(** ** Machine integers

    C [int] is 32 bits wide.  Signed overflow is undefined behaviour, so
    arithmetic is done in [Z] and every result is checked against the
    range. *)

Definition INT_MIN : Z := - 2 ^ 31.
Definition INT_MAX : Z := 2 ^ 31 - 1.

Definition in_int (z : Z) : bool := (INT_MIN <=? z) && (z <=? INT_MAX).

(** ** Outcomes of a computation

    [Ret a]: the code returns [a].  [Undef]: the code leaves defined C
    behaviour (signed overflow, division by zero, an index outside its
    array).  [Fuel]: the bounded unfolding of a loop was too short. *)

Inductive res (A : Type) : Type :=
| Ret (a : A)
| Undef
| Fuel.

Arguments Ret {A} a.
Arguments Undef {A}.
Arguments Fuel {A}.

Definition res_bind {A B : Type} (x : res A) (f : A -> res B) : res B :=
  match x with
  | Ret a => f a
  | Undef => Undef
  | Fuel => Fuel
  end.

Definition of_option {A : Type} (o : option A) : res A :=
  match o with
  | Some a => Ret a
  | None => Undef
  end.

(** [a + b] on [int]. *)
Definition int_add (a b : Z) : res Z :=
  if in_int (a + b) then Ret (a + b) else Undef.

(** Reading [arr[i]] for a C index [i]. *)
Definition arr_get {A : Type} (arr : list A) (i : Z) : option A :=
  if i <? 0 then None else arr !! Z.to_nat i.

(** Writing [arr[i] = v] for a C index [i]. *)
Definition arr_set {A : Type} (arr : list A) (i : Z) (v : A) : option (list A) :=
  if (0 <=? i) && (i <? Z.of_nat (length arr))
  then Some (<[Z.to_nat i := v]> arr)
  else None.

(** ** action.c *)

(** The action kinds of [action.h]; [ACTION_UNSET] is the sentinel that
    [UpdateGameState] stores. *)
Inductive ActionType : Set := FOLD | CALL | BET | ACTION_UNSET.

Record Action : Set := mkAction {
  type : ActionType;
  amount : Z;
  str : string           (* the [string] buffer of the struct *)
}.

Definition ActionSetFold (action : Action) : Action :=
  {| type := FOLD; amount := 0; str := str action |}.

Definition ActionSetCall (action : Action) : Action :=
  {| type := CALL; amount := 0; str := str action |}.

Definition ActionSetBet (action : Action) (amount : Z) : Action :=
  {| type := BET; amount := amount; str := str action |}.

(** [sprintf]'s [%d]: the decimal digits of the [int], after a minus
    sign when it is negative. *)
Definition format_d (n : Z) : string :=
  NilZero.string_of_int (Z.to_int n).

(** Reading a decimal token back. *)
Definition parse_d (s : string) : option Z :=
  option_map Z.of_int (NilZero.int_of_string s).

(** The text that [ActionGetString] prints into the buffer. *)
Definition action_text (action : Action) : string :=
  match type action with
  | FOLD => "action_name=fold"
  | CALL => "action_name=call"
  | BET => "action_name=bet&amount=" ++ format_d (amount action)
  | ACTION_UNSET =>
      (* default: "Should not be here! Action name has not been set" *)
      "action_name=fold"
  end%string.

(** [ActionGetString] fills the buffer and returns it. *)
Definition ActionGetString (action : Action) : string * Action :=
  let s := action_text action in
  (s, {| type := type action; amount := amount action; str := s |}).

(** ** Binary64 arithmetic

    C [double] is IEEE 754 binary64.  Its values and operations are the
    ones of the Standard Library's [SpecFloat] at precision 53 and
    maximal exponent 1024 (round to nearest, ties to even). *)

Definition double : Set := spec_float.

Definition dprec : Z := 53.
Definition demax : Z := 1024.

Definition double_div (x y : double) : double := SFdiv dprec demax x y.
Definition double_mul (x y : double) : double := SFmul dprec demax x y.

(** [x > y] on doubles; false as soon as one side is a NaN. *)
Definition double_gt (x y : double) : bool := SFltb y x.

(** The conversion [(double) z] of an [int]; exact, as 32 bits fit in
    the 53-bit significand. *)
Definition int_to_double (z : Z) : double := binary_normalize dprec demax z 0 false.

(** The integral part of a double, towards zero. *)
Definition double_trunc (x : double) : option Z :=
  match x with
  | S754_zero _ => Some 0
  | S754_finite s m e => Some (cond_Zopp s (Z.shiftl (Zpos m) e))
  | S754_infinity _ | S754_nan => None
  end.

(** The conversion of a double to [int]: the fractional part is
    discarded; undefined when the integral part is not representable. *)
Definition double_to_int (x : double) : res Z :=
  match double_trunc x with
  | Some t => if in_int t then Ret t else Undef
  | None => Undef
  end.

(** The literals [0.5], [0.25] and [1.0]. *)
Definition dbl_0_5 : double := S754_finite false 4503599627370496 (-53).
Definition dbl_0_25 : double := S754_finite false 4503599627370496 (-54).
Definition dbl_1_0 : double := S754_finite false 4503599627370496 (-52).

(** The rational number a finite double stands for. *)
Definition double_value (x : double) : option Q :=
  match x with
  | S754_zero _ => Some 0%Q
  | S754_finite s m e => Some (inject_Z (cond_Zopp s (Zpos m)) * (2 # 1) ^ e)%Q
  | S754_infinity _ | S754_nan => None
  end.

(** A well-formed binary64 datum: the significand is canonical and the
    exponent in range. *)
Definition double_valid (x : double) : bool := valid_binary dprec demax x.

(** ** The collaborators of pokerai.c

    What the engine calls but does not define: libc's [rand], the timer
    of [timer.h], the hand evaluator of [evaluator.h] and the constants
    of [gamestate.h].  [World] is the state these calls act on (the
    generator's seed, the clock). *)

Class Host : Type := {
  World : Type;
  (** [rand()] *)
  rand : World -> Z * World;
  Timer : Type;
  (** [StartTimer(&timer)] *)
  StartTimer : World -> Timer * World;
  (** [GetElapsedTime(&timer)], in milliseconds *)
  GetElapsedTime : Timer -> World -> Z * World;
  (** [GetHandValue(cards, size)] on the [size] cards of the array *)
  GetHandValue : list Z -> Z;
  NUM_HAND : Z;
  NUM_COMMUNITY : Z;
  NUM_DECK : Z;
  MAX_OPPONENTS : Z
}.

(** ** gamestate.h *)

Record GameState : Type := mkGameState {
  hand : list Z;            (* the AI's hole cards *)
  community : list Z;       (* the community cards seen so far *)
  communitysize : Z;
  deck : list bool;         (* deck[i] holds while card i + 1 is unseen *)
  num_opponents : Z;
  stack : Z;
  your_turn : bool
}.

(** ** pokerai.h

    The logging fields, the thread handles and the mutex carry no data of
    the decision; they are left out. *)

Record PokerAI : Type := mkPokerAI {
  num_threads : Z;
  timeout : Z;
  game : GameState;
  action : Action;
  games_won : Z;
  games_simulated : Z
}.

Definition set_action (ai : PokerAI) (a : Action) : PokerAI :=
  {| num_threads := num_threads ai; timeout := timeout ai; game := game ai;
     action := a; games_won := games_won ai;
     games_simulated := games_simulated ai |}.

Definition set_game (ai : PokerAI) (g : GameState) : PokerAI :=
  {| num_threads := num_threads ai; timeout := timeout ai; game := g;
     action := action ai; games_won := games_won ai;
     games_simulated := games_simulated ai |}.

Definition set_tally (ai : PokerAI) (won simulated : Z) : PokerAI :=
  {| num_threads := num_threads ai; timeout := timeout ai; game := game ai;
     action := action ai; games_won := won;
     games_simulated := simulated |}.

Definition set_type (a : Action) (t : ActionType) : Action :=
  {| type := t; amount := amount a; str := str a |}.

Definition set_amount (a : Action) (n : Z) : Action :=
  {| type := type a; amount := n; str := str a |}.

Definition AI_WIN : Z := 1.
Definition AI_LOSE : Z := 0.

Notation "'let*' x ':=' e 'in' k" := (res_bind e (fun x => k))
  (at level 10, x pattern, e at level 200, k at level 200).

(** [for (int i = lo; i < hi; i++) body], over the state [s] the body
    updates. *)
Fixpoint for_loop {S : Type} (n : nat) (i : Z) (body : Z -> S -> res S) (s : S)
  : res S :=
  match n with
  | O => Ret s
  | Datatypes.S n' => let* s' := body i s in for_loop n' (i + 1) body s'
  end.

Definition for_range {S : Type} (lo hi : Z) (body : Z -> S -> res S) (s : S)
  : res S :=
  for_loop (Z.to_nat (hi - lo)) lo body s.

(** ** The threads of pokerai.c

    The locals of one worker thread of [SimulateGames].  [reads] is not
    in the source: it records every call of [GetElapsedTime] as the pair
    of [simulated] at the call and the time returned, latest first. *)
Record Worker (T : Type) : Type := mkWorker {
  timer : T;
  simulated : Z;
  won : Z;
  reads : list (Z * Z)
}.

Arguments mkWorker {T} _ _ _ _.
Arguments timer {T} _.
Arguments simulated {T} _.
Arguments won {T} _.
Arguments reads {T} _.

(** Where a thread stands: created and not yet running; in the
    [while (1)] loop; out of the loop and before the locked update; back
    from [SimulateGames]. *)
Inductive Thread (T : Type) : Type :=
| Created
| Looping (k : Worker T)
| Exited (k : Worker T)
| Returned (k : Worker T).

Arguments Created {T}.
Arguments Looping {T} k.
Arguments Exited {T} k.
Arguments Returned {T} k.

(** The threads of [SpawnMonteCarloThreads] share the AI and the world.
    A schedule names the thread that moves next; a name without a thread
    is skipped. *)
Record Engine (W T : Type) : Type := mkEngine {
  eng_ai : PokerAI;
  eng_world : W;
  eng_threads : list (Thread T)
}.

Arguments mkEngine {W T} _ _ _.
Arguments eng_ai {W T} _.
Arguments eng_world {W T} _.
Arguments eng_threads {W T} _.

Section Engine.

Context {host : Host}.

(** *** draw

    [rand() % *psize] picks the slot, the last card of the pool takes its
    place and the pool shrinks by one.  The pool is [deck[0 .. psize-1]]. *)
Definition draw (deck : list Z) (psize : Z) (w : World)
  : res (Z * list Z * Z * World) :=
  let (r, w) := rand w in
  if psize =? 0 then Undef
  else
    let index := Z.rem r psize in
    let* value := of_option (arr_get deck index) in
    let* last := of_option (arr_get deck (psize - 1)) in
    let* deck := of_option (arr_set deck index last) in
    Ret (value, deck, psize - 1, w).

(** *** BestOpponentHand *)
Definition BestOpponentHand (opponents : list (list Z)) (numopponents numcards : Z)
  : res Z :=
  for_range 0 numopponents
    (fun i max =>
       let* cards := of_option (arr_get opponents i) in
       let score := GetHandValue (take (Z.to_nat numcards) cards) in
       Ret (if score >? max then score else max))
    0.

(** *** SimulateSingleGame, the deck

    "Create a deck as a randomized queue data structure": the cards whose
    flag is set, in increasing order; "cards are 1 indexed". *)
Definition fill_deck (game : GameState) : res (list Z * Z) :=
  for_range 0 NUM_DECK
    (fun i '(pool, decksize) =>
       let* unseen := of_option (arr_get (deck game) i) in
       if unseen : bool then
         let* pool := of_option (arr_set pool decksize (i + 1)) in
         Ret (pool, decksize + 1)
       else Ret (pool, decksize))
    (replicate 52 0, 0).

(** *** SimulateSingleGame, the cards

    Everything before "See who won": the seven cards of the AI and of
    each opponent, with the world after the draws. *)
Definition deal (game : GameState) (w : World)
  : res (list Z * list (list Z) * World) :=
  let numcards := NUM_HAND + NUM_COMMUNITY in
  (* opponents[i] = malloc(...) *)
  let* opponents :=
    for_range 0 (num_opponents game)
      (fun i opponents =>
         of_option (arr_set opponents i (replicate (Z.to_nat numcards) 0)))
      (replicate (Z.to_nat MAX_OPPONENTS) []) in
  let* (pool, decksize) := fill_deck game in
  (* Add the known community cards to the simulation community list *)
  let* cards :=
    for_range 0 (communitysize game)
      (fun i cards =>
         let* c := of_option (arr_get (community game) i) in
         of_option (arr_set cards i c))
      (replicate (Z.to_nat NUM_COMMUNITY) 0) in
  (* Distribute the rest of the community cards *)
  let* (cards, pool, decksize, w) :=
    for_range (communitysize game) NUM_COMMUNITY
      (fun i '(cards, pool, decksize, w) =>
         let* (c, pool, decksize, w) := draw pool decksize w in
         let* cards := of_option (arr_set cards i c) in
         Ret (cards, pool, decksize, w))
      (cards, pool, decksize, w) in
  (* Give each opponent their cards *)
  let* (opponents, pool, decksize, w) :=
    for_range 0 (num_opponents game)
      (fun opp '(opponents, pool, decksize, w) =>
         let* his := of_option (arr_get opponents opp) in
         (* Personal cards *)
         let* (his, pool, decksize, w) :=
           for_range 0 NUM_HAND
             (fun i '(his, pool, decksize, w) =>
                let* (c, pool, decksize, w) := draw pool decksize w in
                let* his := of_option (arr_set his i c) in
                Ret (his, pool, decksize, w))
             (his, pool, decksize, w) in
         (* Community cards *)
         let* his :=
           for_range NUM_HAND (NUM_COMMUNITY + NUM_HAND)
             (fun i his =>
                let* c := of_option (arr_get cards (i - NUM_HAND)) in
                of_option (arr_set his i c))
             his in
         let* opponents := of_option (arr_set opponents opp his) in
         Ret (opponents, pool, decksize, w))
      (opponents, pool, decksize, w) in
  (* Put my cards into a new array *)
  let* me :=
    for_range 0 NUM_HAND
      (fun i me =>
         let* c := of_option (arr_get (hand game) i) in
         of_option (arr_set me i c))
      (replicate (Z.to_nat numcards) 0) in
  let* me :=
    for_range NUM_HAND (NUM_HAND + NUM_COMMUNITY)
      (fun i me =>
         let* c := of_option (arr_get cards (i - NUM_HAND)) in
         of_option (arr_set me i c))
      me in
  Ret (me, opponents, w).

(** *** SimulateSingleGame *)
Definition SimulateSingleGame (ai : PokerAI) (w : World) : res (Z * World) :=
  let game := game ai in
  let numcards := NUM_HAND + NUM_COMMUNITY in
  let* (me, opponents, w) := deal game w in
  (* See who won *)
  let myscore := GetHandValue (take (Z.to_nat numcards) me) in
  let* bestopponent := BestOpponentHand opponents (num_opponents game) numcards in
  if myscore >? bestopponent then Ret (AI_WIN, w) else Ret (AI_LOSE, w).

(** *** SimulateGames *)

(** [won += SimulateSingleGame(ai); simulated++;] *)
Definition play (ai : PokerAI) (w : World) (k : Worker Timer)
  : res (World * Worker Timer) :=
  let* (r, w) := SimulateSingleGame ai w in
  let* won := int_add (won k) r in
  let* simulated := int_add (simulated k) 1 in
  Ret (w, {| timer := timer k; simulated := simulated; won := won;
             reads := reads k |}).

(** One move of a worker thread: the start of its timer, one turn of the
    loop, or the update of the totals under the mutex. *)
Definition SimulateGames_step (ai : PokerAI) (w : World) (th : Thread Timer)
  : res (PokerAI * World * Thread Timer) :=
  match th with
  | Created =>
      let (tm, w) := StartTimer w in
      Ret (ai, w, Looping {| timer := tm; simulated := 0; won := 0; reads := [] |})
  | Looping k =>
      if Z.rem (simulated k) 1000 =? 0 then
        let (t, w) := GetElapsedTime (timer k) w in
        let k := {| timer := timer k; simulated := simulated k; won := won k;
                    reads := (simulated k, t) :: reads k |} in
        if t >? timeout ai then Ret (ai, w, Exited k)
        else let* (w, k) := play ai w k in Ret (ai, w, Looping k)
      else let* (w, k) := play ai w k in Ret (ai, w, Looping k)
  | Exited k =>
      (* Lock the AI mutex and update the totals *)
      let* gw := int_add (games_won ai) (won k) in
      let* gs := int_add (games_simulated ai) (simulated k) in
      Ret (set_tally ai gw gs, w, Returned k)
  | Returned k => Ret (ai, w, Returned k)
  end.

(** *** SpawnMonteCarloThreads *)

Definition step (i : nat) (e : Engine World Timer)
  : res (Engine World Timer) :=
  match eng_threads e !! i with
  | None => Ret e
  | Some th =>
      let* (ai, w, th) := SimulateGames_step (eng_ai e) (eng_world e) th in
      Ret {| eng_ai := ai; eng_world := w;
             eng_threads := <[i := th]> (eng_threads e) |}
  end.

Fixpoint run (sched : list nat) (e : Engine World Timer)
  : res (Engine World Timer) :=
  match sched with
  | [] => Ret e
  | i :: sched => let* e := step i e in run sched e
  end.

Definition returned (th : Thread Timer) : bool :=
  match th with
  | Returned _ => true
  | _ => false
  end.

Definition spawn (ai : PokerAI) (w : World) : Engine World Timer :=
  {| eng_ai := ai; eng_world := w;
     eng_threads := replicate (Z.to_nat (num_threads ai)) Created |}.

(** [pthread_create] for each thread, then [pthread_join] for each: the
    call returns once every thread is back. *)
Definition SpawnMonteCarloThreads (sched : list nat) (ai : PokerAI) (w : World)
  : res (PokerAI * World) :=
  let* e := run sched (spawn ai w) in
  if forallb returned (eng_threads e) then Ret (eng_ai e, eng_world e)
  else Fuel.

(** *** GetBestAction *)

(** [((double) ai->games_won) / ai->games_simulated] *)
Definition winprob_of (ai : PokerAI) : double :=
  double_div (int_to_double (games_won ai)) (int_to_double (games_simulated ai)).

(** The thresholds ("TODO: Make a good AI"). *)
Definition GetBestAction_policy (winprob : double) (ai : PokerAI) : res PokerAI :=
  if double_gt winprob dbl_0_5 then
    let* n := double_to_int (double_mul (int_to_double (stack (game ai))) winprob) in
    Ret (set_action ai (set_amount (set_type (action ai) BET) n))
  else if double_gt winprob dbl_0_25 then
    Ret (set_action ai (set_type (action ai) CALL))
  else
    Ret (set_action ai (set_type (action ai) FOLD)).

Definition GetBestAction (sched : list nat) (ai : PokerAI) (w : World)
  : res (string * PokerAI * World) :=
  let ai := set_tally ai 0 0 in
  let* (ai, w) := SpawnMonteCarloThreads sched ai w in
  let winprob := winprob_of ai in
  let* ai := GetBestAction_policy winprob ai in
  let (s, a) := ActionGetString (action ai) in
  Ret (s, set_action ai a, w).

Definition MyTurn (ai : PokerAI) : bool := your_turn (game ai).

End Engine.

(** *** UpdateGameState *)

(** The JSON documents of cJSON and their decoding into a game state. *)
Class Decoder : Type := {
  cJSON : Type;
  decode : cJSON -> option GameState
}.

(** Modelled from the spec: [SetGameState] of gamestate.c is not part of
    the sources at hand.  The game state is "replaced wholesale on each
    update"; on a decode failure "the engine retains the previous
    GameState unchanged (no partial update)". *)
Definition SetGameState {D : Decoder} (game : GameState) (new_state : cJSON)
  : GameState :=
  match decode new_state with
  | Some g => g
  | None => game
  end.

Definition UpdateGameState {D : Decoder} (ai : PokerAI) (new_state : cJSON)
  : PokerAI :=
  let ai := set_action ai (set_type (action ai) ACTION_UNSET) in
  set_game ai (SetGameState (game ai) new_state).

(** ** A host to run the engine on

    The world is a tick counter: [rand] returns a scrambled tick, the
    clock shows the ticks since the timer started, a hand is worth one
    more than the sum of its cards. *)
#[local] Instance toy_host : Host := {|
  World := nat;
  rand := fun w => ((Z.of_nat w * 7919 + 13) mod 32768, S w);
  Timer := nat;
  StartTimer := fun w => (w, w);
  GetElapsedTime := fun tm w => (Z.of_nat (w - tm), w);
  GetHandValue := fun cards => 1 + foldr Z.add 0 cards;
  NUM_HAND := 2;
  NUM_COMMUNITY := 5;
  NUM_DECK := 52;
  MAX_OPPONENTS := 10
|}.

(** A flop: the AI holds cards 1 and 14, the board shows 2, 3 and 4, one
    opponent. *)
Definition toy_game : GameState :=
  {| hand := [1; 14];
     community := [2; 3; 4; 0; 0];
     communitysize := 3;
     deck := [false; false; false; false] ++ replicate 9 true
             ++ [false] ++ replicate 38 true;
     num_opponents := 1;
     stack := 100;
     your_turn := true |}.

Definition toy_action : Action :=
  {| type := ACTION_UNSET; amount := 0; str := "" |}.

Definition toy_ai : PokerAI :=
  {| num_threads := 2; timeout := 5; game := toy_game; action := toy_action;
     games_won := 0; games_simulated := 0 |}.

(** The same table with nobody else at it: every simulated game is won. *)
Definition toy_ai_alone : PokerAI :=
  {| num_threads := 1; timeout := 5;
     game := {| hand := hand toy_game; community := community toy_game;
                communitysize := communitysize toy_game; deck := deck toy_game;
                num_opponents := 0; stack := stack toy_game;
                your_turn := true |};
     action := toy_action; games_won := 0; games_simulated := 0 |}.

(** The engine of [toy_ai] once the first thread has left its loop and
    the second is back. *)
Definition toy_late : Engine nat nat :=
  {| eng_ai := set_tally toy_ai 5 1000;
     eng_world := Z.to_nat 8000;
     eng_threads :=
       [Exited (mkWorker 0%nat 1000 4 [(1000, 4000); (0, 0)]);
        Returned (mkWorker (Z.to_nat 4000) 1000 5 [(1000, 4000); (0, 0)])] |}.

Definition toy_sched : list nat :=
  replicate 1002 0%nat ++ replicate 1003 1%nat.

(** The toy AI without a worker thread. *)
Definition toy_idle : PokerAI :=
  {| num_threads := 0; timeout := 5; game := toy_game; action := toy_action;
     games_won := 0; games_simulated := 0 |}.

(** A decoder for the idle case: documents are game states already. *)
#[local] Instance toy_decoder : Decoder := {|
  cJSON := option GameState;
  decode := fun j => j
|}.

(** ** Notions the statements use *)

(** The pool a deck array holds: its first [psize] cells. *)
Definition pool_of (deck : list Z) (psize : Z) : list Z :=
  take (Z.to_nat psize) deck.

(** [n] calls of [draw] in a row, with the cards in the order drawn. *)
Fixpoint draw_n {host : Host} (n : nat) (deck : list Z) (psize : Z) (w : World)
  : res (list Z * list Z * Z * World) :=
  match n with
  | O => Ret ([], deck, psize, w)
  | S n =>
      let* (c, deck, psize, w) := draw deck psize w in
      let* (cs, deck, psize, w) := draw_n n deck psize w in
      Ret (c :: cs, deck, psize, w)
  end.

(** [rand] returns a value between 0 and [RAND_MAX]. *)
Definition rand_nonneg (host : Host) : Prop :=
  forall w : World, 0 <= fst (rand w).

(** Card [c] is outside the used set: its flag in the game state is on. *)
Definition unseen (game : GameState) (c : Z) : Prop :=
  arr_get (deck game) (c - 1) = Some true.

#[global] Instance unseen_dec (game : GameState) (c : Z) : Decision (unseen game c).
Proof. unfold unseen. apply _. Defined.

(** The cards outside the used set, each once, in increasing order. *)
Definition unseen_cards {host : Host} (game : GameState) : list Z :=
  filter (unseen game) (seqZ 1 NUM_DECK).

(** The cards the AI knows: its hole cards and the community cards dealt
    so far. *)
Definition known_cards (game : GameState) : list Z :=
  hand game ++ take (Z.to_nat (communitysize game)) (community game).

(** The game state has marked every known card as used. *)
Definition known_marked (game : GameState) : Prop :=
  forall c : Z, In c (known_cards game) -> arr_get (deck game) (c - 1) = Some false.

(** What the loop of [fill_deck] has built when it reaches card [i]. *)
Definition deck_upto (game : GameState) (i : Z) (s : list Z * Z) : Prop :=
  length (fst s) = 52%nat /\
  pool_of (fst s) (snd s) = filter (unseen game) (seqZ 1 i) /\
  snd s = Z.of_nat (length (filter (unseen game) (seqZ 1 i))).

(** The score of the [numcards] cards of a hand array. *)
Definition score_of {host : Host} (numcards : Z) (cards : list Z) : Z :=
  GetHandValue (take (Z.to_nat numcards) cards).

(** The scores of the first [numopponents] hands. *)
Definition opponent_scores {host : Host} (opponents : list (list Z))
           (numopponents numcards : Z) : list Z :=
  map (score_of numcards) (take (Z.to_nat numopponents) opponents).



(** The invariant of a tally: the games won are among the games played. *)
Definition tally_ok (played won : Z) : Prop := 0 <= won <= played.

(** The locals of a thread that has started. *)
Definition worker_of {T : Type} (th : Thread T) : option (Worker T) :=
  match th with
  | Created => None
  | Looping k | Exited k | Returned k => Some k
  end.

Definition thread_tally_ok {T : Type} (th : Thread T) : Prop :=
  match worker_of th with
  | Some k => tally_ok (simulated k) (won k)
  | None => True
  end.

(** What a thread has added to the totals: its tally once it is back,
    nothing before. *)
Definition contrib {T : Type} (f : Worker T -> Z) (th : Thread T) : Z :=
  match th with
  | Returned k => f k
  | _ => 0
  end.

Definition returned_sum {T : Type} (f : Worker T -> Z) (ths : list (Thread T))
  : Z :=
  foldr (fun th acc => contrib f th + acc) 0 ths.

(** The counts below [n] at which the loop looks at the clock. *)
Definition check_points (n : Z) : list Z :=
  filter (fun k => Z.rem k 1000 = 0) (seqZ 0 n).

(** The clock reads of a thread: one at every multiple of 1000 it has
    counted, in order, and at no other count; each one within the timeout,
    but for the last read of a thread that has left the loop, which is
    beyond it. *)
Definition reads_ok {T : Type} (timeout : Z) (th : Thread T) : Prop :=
  match th with
  | Created => True
  | Looping k =>
      0 <= simulated k /\
      map fst (reads k) = reverse (check_points (simulated k)) /\
      Forall (fun t => t <= timeout) (map snd (reads k))
  | Exited k | Returned k =>
      0 <= simulated k /\
      Z.rem (simulated k) 1000 = 0 /\
      exists t rest,
        reads k = (simulated k, t) :: rest /\
        timeout < t /\
        map fst rest = reverse (check_points (simulated k)) /\
        Forall (fun t => t <= timeout) (map snd rest)
  end.

(** The tallies of an engine: every thread's tally is in order and the
    totals of the AI are the sums over the threads that are back. *)
Definition tallies_inv {W T : Type} (e : Engine W T) : Prop :=
  Forall thread_tally_ok (eng_threads e) /\
  games_won (eng_ai e) = returned_sum won (eng_threads e) /\
  games_simulated (eng_ai e) = returned_sum simulated (eng_threads e).

(** The clock reads of an engine whose timeout is [t0]. *)
Definition reads_inv {W T : Type} (t0 : Z) (e : Engine W T) : Prop :=
  timeout (eng_ai e) = t0 /\ Forall (reads_ok t0) (eng_threads e).

(** A double that is not below zero: its sign bit is off when it is a
    finite number other than zero. *)
Definition sign_off (x : double) : Prop :=
  match x with
  | S754_finite s _ _ => s = false
  | _ => True
  end.

(** ** Further notions *)

(** *** WriteAction

    The line [WriteAction] prints to the file. *)
Definition tab : string := String "009"%char EmptyString.
Definition newline : string := String "010"%char EmptyString.

Definition WriteAction (ai : PokerAI) : string :=
  match type (action ai) with
  | FOLD => "ACTION:" ++ tab ++ "FOLDING" ++ newline
  | CALL => "ACTION:" ++ tab ++ "CALLING" ++ newline
  | BET => "ACTION:" ++ tab ++ "BETTING " ++ format_d (amount (action ai)) ++ newline
  | ACTION_UNSET => "No action set" ++ newline
  end%string.

(** The greatest of the scores, and 0 when none is above 0. *)
Definition max_score (scores : list Z) : Z := foldr Z.max 0 scores.

(** What the loop of [fill_deck] has built when it reaches card [i], with
    the cells it has not written. *)
Definition deck_full (game : GameState) (i : Z) (s : list Z * Z) : Prop :=
  deck_upto game i s /\
  drop (Z.to_nat (snd s)) (fst s) = replicate (52 - Z.to_nat (snd s)) 0.

(** What a decision cycle leaves alone in the AI, and the number of its
    threads. *)
Definition frame_inv {W T : Type} (ai0 : PokerAI) (e : Engine W T) : Prop :=
  game (eng_ai e) = game ai0 /\
  num_threads (eng_ai e) = num_threads ai0 /\
  timeout (eng_ai e) = timeout ai0 /\
  action (eng_ai e) = action ai0 /\
  length (eng_threads e) = Z.to_nat (num_threads ai0).

(** The schedule that runs the threads one after the other, three moves
    each. *)
Definition three_each (first n : nat) : list nat :=
  flat_map (fun i => [i; i; i]) (seq first n).

(** A thread that is back without a game. *)
Definition idle {T : Type} (th : Thread T) : Prop :=
  exists k, th = Returned k /\ simulated k = 0 /\ won k = 0.

(** The clock of the host is past the timeout at every reading. *)
Definition expired (host : Host) (timeout : Z) : Prop :=
  forall (tm : Timer) (w : World), timeout < fst (GetElapsedTime tm w).

(** The order of the decisions. *)
Definition rank (t : ActionType) : Z :=
  match t with
  | BET => 2
  | CALL => 1
  | FOLD | ACTION_UNSET => 0
  end.

(** The toy AI with a timeout that has passed. *)
Definition toy_late_ai : PokerAI :=
  {| num_threads := 2; timeout := -1; game := toy_game; action := toy_action;
     games_won := 0; games_simulated := 0 |}.

(** A game state that [SimulateSingleGame] can play: the arrays are as
    long as the constants say, the counts are within them, and the unseen
    cards are enough for the board and the opponents. *)
Definition well_formed {host : Host} (game : GameState) : Prop :=
  0 <= NUM_HAND /\
  0 <= NUM_DECK <= 52 /\
  NUM_DECK <= Z.of_nat (length (deck game)) /\
  0 <= communitysize game <= NUM_COMMUNITY /\
  communitysize game <= Z.of_nat (length (community game)) /\
  num_opponents game <= MAX_OPPONENTS /\
  NUM_HAND <= Z.of_nat (length (hand game)) /\
  NUM_COMMUNITY - communitysize game + NUM_HAND * Z.max 0 (num_opponents game)
  <= Z.of_nat (length (unseen_cards game)).

(** The clock of the host never shows more than the timeout. *)
Definition within_timeout (host : Host) (timeout : Z) : Prop :=
  forall (tm : Timer) (w : World), fst (GetElapsedTime tm w) <= timeout.

(** A thread that has not left the loop of [SimulateGames]. *)
Definition in_loop {T : Type} (th : Thread T) : Prop :=
  match th with
  | Created | Looping _ => True
  | Exited _ | Returned _ => False
  end.

(** The toy host with a clock that has stopped. *)
Definition toy_frozen : Host := {|
  World := nat;
  rand := fun w => ((Z.of_nat w * 7919 + 13) mod 32768, S w);
  Timer := nat;
  StartTimer := fun w => (w, w);
  GetElapsedTime := fun tm w => (0, w);
  GetHandValue := fun cards => 1 + foldr Z.add 0 cards;
  NUM_HAND := 2;
  NUM_COMMUNITY := 5;
  NUM_DECK := 52;
  MAX_OPPONENTS := 10
|}.


(** The toy AI with a stack of three chips. *)
Definition toy_ai_short : PokerAI :=
  set_game toy_ai
           {| hand := hand toy_game; community := community toy_game;
              communitysize := communitysize toy_game; deck := deck toy_game;
              num_opponents := num_opponents toy_game; stack := 3;
              your_turn := true |}.

(** * Properties *)

(** ** The encoding of actions *)

Lemma parse_format_d (n : Z) : parse_d (format_d n) = Some n.
Proof.
  unfold parse_d, format_d.
  rewrite NilZero.isi.
  - simpl. now rewrite DecimalZ.of_to.
  - destruct n; simpl; try discriminate.
    intros [= H]. revert H. apply DecimalPos.Unsigned.to_uint_nonnil.
  - destruct n; simpl; try discriminate.
    intros [= H]. revert H. apply DecimalPos.Unsigned.to_uint_nonnil.
Qed.

Lemma GetBestAction_policy_type (winprob : double) (ai ai' : PokerAI) :
  GetBestAction_policy winprob ai = Ret ai' ->
  type (action ai') <> ACTION_UNSET.
Proof.
  unfold GetBestAction_policy.
  destruct (double_gt winprob dbl_0_5).
  - destruct (double_to_int _); simpl; try discriminate.
    intros [= <-]. discriminate.
  - destruct (double_gt winprob dbl_0_25); intros [= <-]; discriminate.
Qed.

(** C9.  [ActionGetString] returns the token "action_name=fold" for a
    fold, "action_name=call" for a call and "action_name=bet&amount="
    followed by the decimal digits of the amount for a bet (digits that
    read back as the amount); the string [GetBestAction] returns is one
    of the three, for the action it has just set. *)
Theorem ActionGetString_tokens :
  (forall a : Action,
      (type a = FOLD -> fst (ActionGetString a) = "action_name=fold"%string) /\
      (type a = CALL -> fst (ActionGetString a) = "action_name=call"%string) /\
      (type a = BET ->
       fst (ActionGetString a)
       = ("action_name=bet&amount=" ++ format_d (amount a))%string /\
       parse_d (format_d (amount a)) = Some (amount a))) /\
  (forall (host : Host) (sched : list nat) (ai ai' : PokerAI) (w w' : World)
          (s : string),
      GetBestAction sched ai w = Ret (s, ai', w') ->
      str (action ai') = s /\
      (type (action ai') = FOLD /\ s = "action_name=fold"%string \/
       type (action ai') = CALL /\ s = "action_name=call"%string \/
       type (action ai') = BET /\
       s = ("action_name=bet&amount=" ++ format_d (amount (action ai')))%string)).
Proof.
  split.
  - intros a. unfold ActionGetString, action_text; simpl.
    split; [|split].
    + now intros ->.
    + now intros ->.
    + intros ->. split; [reflexivity | apply parse_format_d].
  - intros host sched ai ai' w w' s. unfold GetBestAction.
    destruct (SpawnMonteCarloThreads _ _ _) as [[ai1 w1]| |]; simpl; try discriminate.
    destruct (GetBestAction_policy _ _) as [ai2| |] eqn:Hpol; simpl; try discriminate.
    intros [= <- <- <-]. apply GetBestAction_policy_type in Hpol.
    simpl. split; [reflexivity|].
    unfold action_text. destruct (type (action ai2)); auto. congruence.
Qed.

(** Alone at the table the toy AI wins its thousand games and bets its
    stack. *)
Lemma toy_alone_decision :
  @GetBestAction toy_host (replicate 1003 0%nat) toy_ai_alone 0%nat
  = Ret ("action_name=bet&amount=100"%string,
         set_tally
           (set_action toy_ai_alone (mkAction BET 100 "action_name=bet&amount=100"))
           1000 1000,
         2000%nat).
Proof. vm_compute. reflexivity. Qed.

Lemma ActionGetString_tokens_witness :
  fst (ActionGetString (mkAction FOLD 0 "")) = "action_name=fold"%string /\
  fst (ActionGetString (mkAction CALL 0 "")) = "action_name=call"%string /\
  fst (ActionGetString (mkAction BET 75 "")) = "action_name=bet&amount=75"%string /\
  (BET = FOLD /\ "action_name=bet&amount=100"%string = "action_name=fold"%string \/
   BET = CALL /\ "action_name=bet&amount=100"%string = "action_name=call"%string \/
   BET = BET /\
   "action_name=bet&amount=100"%string
   = ("action_name=bet&amount=" ++ format_d 100)%string).
Proof.
  split; [|split; [|split]].
  - apply (proj1 ActionGetString_tokens (mkAction FOLD 0 "")). reflexivity.
  - apply (proj1 ActionGetString_tokens (mkAction CALL 0 "")). reflexivity.
  - apply (proj1 ActionGetString_tokens (mkAction BET 75 "")). reflexivity.
  - exact (proj2 (proj2 ActionGetString_tokens toy_host _ _ _ _ _ _
                    toy_alone_decision)).
Defined.

(** C10.  An action whose type is none of fold, call and bet is encoded
    as a fold, without failing; this is the action [UpdateGameState]
    leaves behind. *)
Theorem ActionGetString_unset :
  (forall a : Action,
      type a <> FOLD -> type a <> CALL -> type a <> BET ->
      fst (ActionGetString a) = "action_name=fold"%string) /\
  (forall (D : Decoder) (ai : PokerAI) (new_state : cJSON),
      fst (ActionGetString (action (UpdateGameState ai new_state)))
      = "action_name=fold"%string).
Proof.
  split.
  - intros a Hf Hc Hb. unfold ActionGetString, action_text; simpl.
    destruct (type a); congruence.
  - reflexivity.
Qed.

Lemma ActionGetString_unset_witness :
  fst (ActionGetString toy_action) = "action_name=fold"%string.
Proof.
  apply (proj1 ActionGetString_unset toy_action); discriminate.
Defined.

(** ** The deck sampler *)

Lemma arr_get_Some {A : Type} (arr : list A) (i : Z) :
  0 <= i < Z.of_nat (length arr) ->
  exists x, arr_get arr i = Some x /\ arr !! Z.to_nat i = Some x.
Proof.
  intros Hi. unfold arr_get.
  destruct (Z.ltb_spec i 0); [lia|].
  destruct (lookup_lt_is_Some_2 arr (Z.to_nat i)) as [x Hx]; [lia|].
  exists x. now rewrite Hx.
Qed.

Lemma arr_set_Some {A : Type} (arr : list A) (i : Z) (v : A) :
  0 <= i < Z.of_nat (length arr) ->
  arr_set arr i v = Some (<[Z.to_nat i := v]> arr).
Proof.
  intros Hi. unfold arr_set.
  destruct (Z.leb_spec 0 i); [|lia].
  destruct (Z.ltb_spec i (Z.of_nat (length arr))); [|lia].
  reflexivity.
Qed.

(** Overwriting slot [i] of a pool with its last card and dropping the
    last slot removes exactly the card of slot [i]. *)
Lemma swap_with_last (l : list Z) (n i : nat) (value last : Z) :
  (i < S n)%nat ->
  l !! i = Some value ->
  l !! n = Some last ->
  Permutation (take (S n) l) (value :: take n (<[i := last]> l)).
Proof.
  intros Hi Hv Hl.
  rewrite (take_S_r l n last Hl).
  destruct (decide (i = n)) as [->|Hne].
  - assert (value = last) as -> by congruence.
    rewrite take_insert_ge by lia.
    symmetry. apply Permutation_cons_append.
  - assert (Hin : (i < n)%nat) by lia.
    rewrite take_insert_lt by lia.
    assert (Hv' : take n l !! i = Some value) by (rewrite lookup_take_lt; auto).
    assert (Hlen : (i < length (take n l))%nat) by (eapply lookup_lt_Some; eauto).
    rewrite (insert_take_drop (take n l) i last Hlen).
    rewrite <- (take_drop_middle (take n l) i value Hv') at 1.
    rewrite <- app_assoc. simpl.
    rewrite <- Permutation_middle. constructor.
    apply Permutation_app_head.
    rewrite <- Permutation_cons_append. reflexivity.
Qed.

Section Sampler.

Context {host : Host}.
Hypothesis Hrand : rand_nonneg host.

Lemma draw_spec (deck : list Z) (psize : Z) (w : World) :
  0 < psize <= Z.of_nat (length deck) ->
  exists value deck',
    draw deck psize w = Ret (value, deck', psize - 1, snd (rand w)) /\
    length deck' = length deck /\
    In value (pool_of deck psize) /\
    Permutation (pool_of deck psize) (value :: pool_of deck' (psize - 1)).
Proof.
  intros Hsz. unfold draw. specialize (Hrand w).
  destruct (rand w) as [r w'] eqn:Hr. simpl in *.
  destruct (Z.eqb_spec psize 0); [lia|].
  assert (Hidx : 0 <= Z.rem r psize < psize) by (apply Z.rem_bound_pos; lia).
  destruct (arr_get_Some deck (Z.rem r psize)) as (value & -> & Hv); [lia|].
  cbn [of_option res_bind].
  destruct (arr_get_Some deck (psize - 1)) as (last & -> & Hl); [lia|].
  cbn [of_option res_bind].
  rewrite arr_set_Some by lia. cbn [of_option res_bind].
  exists value, (<[Z.to_nat (Z.rem r psize) := last]> deck).
  assert (Hperm : Permutation (pool_of deck psize)
            (value :: pool_of (<[Z.to_nat (Z.rem r psize) := last]> deck) (psize - 1))).
  { unfold pool_of.
    replace (Z.to_nat psize) with (S (Z.to_nat (psize - 1))) by lia.
    apply swap_with_last; auto. lia. }
  split; [reflexivity|]. split; [apply length_insert|]. split; [|exact Hperm].
  eapply Permutation_in; [symmetry; exact Hperm | now left].
Qed.

Lemma draw_n_spec (n : nat) :
  forall (deck : list Z) (psize : Z) (w : World),
    Z.of_nat n <= psize <= Z.of_nat (length deck) ->
    exists cs deck' w',
      draw_n n deck psize w = Ret (cs, deck', psize - Z.of_nat n, w') /\
      length cs = n /\
      length deck' = length deck /\
      Permutation (pool_of deck psize) (cs ++ pool_of deck' (psize - Z.of_nat n)).
Proof.
  induction n as [|n IH]; intros deck psize w Hsz.
  - exists [], deck, w. simpl. rewrite Z.sub_0_r. auto.
  - destruct (draw_spec deck psize w) as (c & deck1 & Hd & Hlen1 & _ & Hp1); [lia|].
    destruct (IH deck1 (psize - 1) (snd (rand w)))
      as (cs & deck2 & w2 & Hn & Hlcs & Hlen2 & Hp2); [lia|].
    exists (c :: cs), deck2, w2. cbn [draw_n]. rewrite Hd. cbn [res_bind].
    rewrite Hn. cbn [res_bind].
    replace (psize - 1 - Z.of_nat n) with (psize - Z.of_nat (S n)) in * by lia.
    repeat split; simpl; try congruence.
    rewrite Hp1, Hp2. reflexivity.
Qed.

End Sampler.

(** C4.  On a pool of [N >= 1] cards a draw returns a card of the pool,
    leaves the other cards and makes the pool one smaller; [N] draws in a
    row return the cards of the pool, each as often as the pool held it,
    and leave the pool empty; when the pool held no card twice, the [N]
    cards drawn are pairwise distinct. *)
Theorem draw_without_replacement :
  forall (host : Host) (N : nat) (deck : list Z) (w : World),
    rand_nonneg host ->
    (1 <= N <= length deck)%nat ->
    (exists c deck' w',
        draw deck (Z.of_nat N) w = Ret (c, deck', Z.of_nat N - 1, w') /\
        In c (pool_of deck (Z.of_nat N)) /\
        Permutation (pool_of deck (Z.of_nat N))
                    (c :: pool_of deck' (Z.of_nat N - 1)) /\
        length (pool_of deck' (Z.of_nat N - 1)) = (N - 1)%nat) /\
    (exists cs deck' w',
        draw_n N deck (Z.of_nat N) w = Ret (cs, deck', 0, w') /\
        length cs = N /\
        Permutation cs (pool_of deck (Z.of_nat N)) /\
        pool_of deck' 0 = [] /\
        (NoDup (pool_of deck (Z.of_nat N)) -> NoDup cs)).
Proof.
  intros host N deck w Hrand HN. split.
  - destruct (draw_spec Hrand deck (Z.of_nat N) w)
      as (c & deck' & Hd & Hlen & Hin & Hp); [lia|].
    exists c, deck', (snd (rand w)). repeat split; auto.
    unfold pool_of. rewrite length_take. lia.
  - destruct (draw_n_spec Hrand N deck (Z.of_nat N) w)
      as (cs & deck' & w' & Hd & Hlcs & Hlen & Hp); [lia|].
    rewrite Z.sub_diag in *. change (pool_of deck' 0) with (@nil Z) in Hp.
    rewrite app_nil_r in Hp.
    exists cs, deck', w'. repeat split; auto.
    + now symmetry.
    + intros Hnd. now rewrite <- Hp.
Qed.

Lemma draw_without_replacement_witness :
  exists cs deck' w',
    @draw_n toy_host 3 [11; 22; 33; 44] 3 0%nat = Ret (cs, deck', 0, w') /\
    length cs = 3%nat /\
    Permutation cs [11; 22; 33] /\
    pool_of deck' 0 = [] /\
    NoDup cs.
Proof.
  assert (Hrand : rand_nonneg toy_host).
  { intros w. simpl. apply Z.mod_pos_bound. lia. }
  destruct (proj2 (draw_without_replacement toy_host 3 [11; 22; 33; 44] 0%nat
                     Hrand ltac:(simpl; lia)))
    as (cs & deck' & w' & Hrun & Hlen & Hperm & Hempty & Hnodup).
  exists cs, deck', w'. repeat split; auto.
  apply Hnodup. apply (bool_decide_unpack _). vm_compute. exact I.
Defined.

(** ** Loops *)

Lemma for_loop_inv {St : Type} (I : Z -> St -> Prop) (body : Z -> St -> res St)
      (n : nat) :
  forall (i : Z) (s s' : St),
    I i s ->
    (forall j s1 s2,
        i <= j < i + Z.of_nat n -> I j s1 -> body j s1 = Ret s2 -> I (j + 1) s2) ->
    for_loop n i body s = Ret s' ->
    I (i + Z.of_nat n) s'.
Proof.
  induction n as [|n IH]; intros i s s' Hi Hstep Hrun.
  - simpl in Hrun. injection Hrun as <-. now rewrite Z.add_0_r.
  - simpl in Hrun. destruct (body i s) as [s1| |] eqn:Hb; try discriminate.
    simpl in Hrun.
    replace (i + Z.of_nat (S n)) with (i + 1 + Z.of_nat n) by lia.
    apply (IH (i + 1) s1 s'); auto.
    + apply (Hstep i s s1); auto. lia.
    + intros j s2 s3 Hj. apply Hstep. lia.
Qed.

Lemma for_loop_ret {St : Type} (I : Z -> St -> Prop) (body : Z -> St -> res St)
      (n : nat) :
  forall (i : Z) (s : St),
    I i s ->
    (forall j s1,
        i <= j < i + Z.of_nat n -> I j s1 ->
        exists s2, body j s1 = Ret s2 /\ I (j + 1) s2) ->
    exists s', for_loop n i body s = Ret s' /\ I (i + Z.of_nat n) s'.
Proof.
  induction n as [|n IH]; intros i s Hi Hstep.
  - exists s. simpl. now rewrite Z.add_0_r.
  - destruct (Hstep i s) as (s1 & Hb & Hi1); [lia|auto|].
    destruct (IH (i + 1) s1) as (s' & Hrun & Hi'); auto.
    + intros j s2 Hj. apply Hstep. lia.
    + exists s'. simpl. rewrite Hb. simpl. split; auto.
      now replace (i + Z.of_nat (S n)) with (i + 1 + Z.of_nat n) by lia.
Qed.

Lemma for_range_inv {St : Type} (I : Z -> St -> Prop) (body : Z -> St -> res St)
      (lo hi : Z) (s s' : St) :
  lo <= hi ->
  I lo s ->
  (forall j s1 s2, lo <= j < hi -> I j s1 -> body j s1 = Ret s2 -> I (j + 1) s2) ->
  for_range lo hi body s = Ret s' ->
  I hi s'.
Proof.
  intros Hle Hi Hstep Hrun. unfold for_range in Hrun.
  replace hi with (lo + Z.of_nat (Z.to_nat (hi - lo))) by lia.
  eapply for_loop_inv; eauto.
  intros j s1 s2 Hj. apply Hstep. lia.
Qed.

Lemma for_range_ret {St : Type} (I : Z -> St -> Prop) (body : Z -> St -> res St)
      (lo hi : Z) (s : St) :
  lo <= hi ->
  I lo s ->
  (forall j s1, lo <= j < hi -> I j s1 ->
                exists s2, body j s1 = Ret s2 /\ I (j + 1) s2) ->
  exists s', for_range lo hi body s = Ret s' /\ I hi s'.
Proof.
  intros Hle Hi Hstep. unfold for_range.
  destruct (for_loop_ret I body (Z.to_nat (hi - lo)) lo s) as (s' & Hrun & Hi'); auto.
  - intros j s1 Hj. apply Hstep. lia.
  - exists s'. split; auto.
    now replace (lo + Z.of_nat (Z.to_nat (hi - lo))) with hi in Hi' by lia.
Qed.

Lemma for_range_empty {St : Type} (body : Z -> St -> res St) (lo hi : Z) (s : St) :
  hi <= lo -> for_range lo hi body s = Ret s.
Proof.
  intros Hle. unfold for_range.
  now replace (Z.to_nat (hi - lo)) with O by lia.
Qed.

(** ** The deck of a simulated game *)

Section Deck.

Context {host : Host}.

Lemma seqZ_snoc (i : Z) : 0 <= i -> seqZ 1 (i + 1) = seqZ 1 i ++ [i + 1].
Proof.
  intros Hi. rewrite seqZ_app by lia.
  rewrite (seqZ_cons (1 + i) 1) by lia.
  rewrite (seqZ_nil _ (Z.pred 1)) by lia.
  now rewrite Z.add_comm.
Qed.

Lemma deck_upto_step (game : GameState) (j : Z) (s1 s2 : list Z * Z) :
  0 <= j ->
  deck_upto game j s1 ->
  (let '(pool, decksize) := s1 in
   let* unseen := of_option (arr_get (deck game) j) in
   if unseen : bool then
     let* pool := of_option (arr_set pool decksize (j + 1)) in
     Ret (pool, decksize + 1)
   else Ret (pool, decksize)) = Ret s2 ->
  deck_upto game (j + 1) s2.
Proof.
  intros Hj. destruct s1 as [pool ds]. intros (Hlen & Hpool & Hds). simpl in *.
  destruct (arr_get (deck game) j) as [[|]|] eqn:Hflag; simpl; try discriminate.
  - unfold arr_set.
    destruct ((0 <=? ds) && (ds <? Z.of_nat (length pool))) eqn:Hin;
      simpl; try discriminate.
    apply andb_true_iff in Hin as [H0 H1].
    apply Z.leb_le in H0. apply Z.ltb_lt in H1.
    intros [= <-]. unfold deck_upto; simpl.
    rewrite seqZ_snoc, filter_app by lia.
    rewrite filter_singleton_True
      by (unfold unseen; now replace (j + 1 - 1) with j by lia); try exact [].
    rewrite length_insert, length_app. simpl. split; [auto|]. split; [|lia].
    unfold pool_of in *.
    replace (Z.to_nat (ds + 1)) with (S (Z.to_nat ds)) by lia.
    rewrite (take_S_r _ _ (j + 1)) by (apply list_lookup_insert_eq; lia).
    rewrite take_insert_ge by lia. now rewrite Hpool.
  - intros [= <-]. unfold deck_upto; simpl.
    rewrite seqZ_snoc, filter_app by lia.
    rewrite filter_singleton_False; try exact [].
    + rewrite app_nil_r. auto.
    + unfold unseen. replace (j + 1 - 1) with j by lia. congruence.
Qed.

Lemma fill_deck_spec (game : GameState) (pool : list Z) (decksize : Z) :
  fill_deck game = Ret (pool, decksize) ->
  pool_of pool decksize = unseen_cards game.
Proof.
  intros Hrun. unfold fill_deck in Hrun.
  destruct (Z.le_gt_cases 0 NUM_DECK) as [Hle|Hgt].
  - apply (for_range_inv (deck_upto game)) in Hrun; auto.
    + now destruct Hrun as (_ & Hp & _).
    + unfold deck_upto. simpl. repeat split.
    + intros j [p d] s2 Hj Hinv Hb. eapply deck_upto_step; eauto. lia.
  - rewrite for_range_empty in Hrun by lia. injection Hrun as <- <-.
    unfold unseen_cards. now rewrite seqZ_nil by lia.
Qed.

Lemma fill_deck_returns (game : GameState) :
  0 <= NUM_DECK <= 52 ->
  NUM_DECK <= Z.of_nat (length (deck game)) ->
  exists pool decksize, fill_deck game = Ret (pool, decksize).
Proof.
  intros Hn Hlen. unfold fill_deck.
  destruct (for_range_ret (deck_upto game)
              (fun i '(pool, decksize) =>
                 let* unseen := of_option (arr_get (deck game) i) in
                 if unseen : bool then
                   let* pool := of_option (arr_set pool decksize (i + 1)) in
                   Ret (pool, decksize + 1)
                 else Ret (pool, decksize))
              0 NUM_DECK (replicate 52 0, 0))
    as ([pool ds] & Hrun & _); [lia| |  |eauto].
  - unfold deck_upto. simpl. repeat split.
  - intros j [p d] Hj Hinv.
    assert (Hd : 0 <= d <= j).
    { destruct Hinv as (_ & _ & Hd). simpl in Hd. rewrite Hd.
      pose proof (length_filter (unseen game) (seqZ 1 j)) as Hf.
      rewrite length_seqZ in Hf. lia. }
    assert (Hp : length p = 52%nat) by apply Hinv.
    destruct (arr_get_Some (deck game) j) as (flag & Hflag & _); [lia|].
    assert (Hbody : exists s2,
      (let* unseen := of_option (arr_get (deck game) j) in
       if unseen : bool then
         let* pool := of_option (arr_set p d (j + 1)) in
         Ret (pool, d + 1)
       else Ret (p, d)) = Ret s2).
    { rewrite Hflag. simpl. destruct flag; [|eauto].
      rewrite arr_set_Some by lia. simpl. eauto. }
    destruct Hbody as (s2 & Hs2). exists s2. split; [exact Hs2|].
    eapply (deck_upto_step game j (p, d)); eauto. lia.
Qed.

Lemma SimulateSingleGame_fills (ai : PokerAI) (w : World) (r : Z * World) :
  SimulateSingleGame ai w = Ret r ->
  exists pool decksize, fill_deck (game ai) = Ret (pool, decksize).
Proof.
  unfold SimulateSingleGame, deal.
  destruct (for_range 0 (num_opponents (game ai)) _ _); simpl; try discriminate.
  destruct (fill_deck (game ai)) as [[pool ds]| |]; simpl; try discriminate.
  eauto.
Qed.

End Deck.

(** C5.  Every simulated game starts from a pool that holds exactly the
    cards outside the used set of the game state, each once; so a known
    card, which the game state has marked as used, is not in the pool. *)
Theorem SimulateSingleGame_fresh_pool :
  forall (host : Host) (ai : PokerAI) (w : World) (r : Z * World),
    SimulateSingleGame ai w = Ret r ->
    exists pool decksize,
      fill_deck (game ai) = Ret (pool, decksize) /\
      pool_of pool decksize = unseen_cards (game ai) /\
      NoDup (pool_of pool decksize) /\
      (forall c : Z,
          In c (pool_of pool decksize) <->
          1 <= c <= NUM_DECK /\ unseen (game ai) c) /\
      (known_marked (game ai) ->
       forall c : Z,
         In c (known_cards (game ai)) -> ~ In c (pool_of pool decksize)).
Proof.
  intros host ai w r Hrun.
  destruct (SimulateSingleGame_fills ai w r Hrun) as (pool & ds & Hfill).
  exists pool, ds. pose proof (fill_deck_spec _ _ _ Hfill) as Hpool.
  assert (Hmem : forall c : Z,
             In c (pool_of pool ds) <-> 1 <= c <= NUM_DECK /\ unseen (game ai) c).
  { intros c. rewrite Hpool. unfold unseen_cards.
    rewrite <- list_elem_of_In, list_elem_of_filter, elem_of_seqZ. intuition lia. }
  split; [exact Hfill|]. split; [exact Hpool|]. split; [|split; [exact Hmem|]].
  - rewrite Hpool. apply NoDup_filter, NoDup_seqZ.
  - intros Hmark c Hknown Hin. apply Hmem in Hin as [_ Hun].
    specialize (Hmark c Hknown). unfold unseen in Hun. congruence.
Qed.

Lemma toy_game_lost : @SimulateSingleGame toy_host toy_ai 0%nat = Ret (0, 4%nat).
Proof. vm_compute. reflexivity. Qed.

Lemma toy_game_known_marked : known_marked toy_game.
Proof.
  intros c Hin. simpl in Hin.
  destruct Hin as [<-|[<-|[<-|[<-|[<-|[]]]]]]; reflexivity.
Qed.

Lemma SimulateSingleGame_fresh_pool_witness :
  exists pool decksize,
    @fill_deck toy_host toy_game = Ret (pool, decksize) /\
    pool_of pool decksize = @unseen_cards toy_host toy_game /\
    NoDup (pool_of pool decksize) /\
    (forall c : Z,
        In c (pool_of pool decksize) <-> 1 <= c <= 52 /\ unseen toy_game c) /\
    (forall c : Z, In c (known_cards toy_game) -> ~ In c (pool_of pool decksize)).
Proof.
  destruct (SimulateSingleGame_fresh_pool toy_host toy_ai 0%nat (0, 4%nat)
              toy_game_lost)
    as (pool & decksize & Hfill & Hpool & Hnodup & Hmem & Hknown).
  exists pool, decksize.
  split; [exact Hfill|]. split; [exact Hpool|]. split; [exact Hnodup|].
  split; [exact Hmem|]. exact (Hknown toy_game_known_marked).
Defined.

(** ** Who won *)

Section Showdown.

Context {host : Host}.

Lemma opponent_scores_snoc (opponents : list (list Z)) (numcards j : Z)
      (cards : list Z) :
  arr_get opponents j = Some cards ->
  opponent_scores opponents (j + 1) numcards
  = opponent_scores opponents j numcards ++ [score_of numcards cards].
Proof.
  unfold arr_get, opponent_scores. destruct (Z.ltb_spec j 0); [discriminate|].
  intros Hget. replace (Z.to_nat (j + 1)) with (S (Z.to_nat j)) by lia.
  rewrite (take_S_r _ _ _ Hget). now rewrite map_app.
Qed.


End Showdown.




(** ** The worker threads *)

Section Workers.

Context {host : Host}.

Lemma int_add_inv (a b c : Z) : int_add a b = Ret c -> c = a + b.
Proof. unfold int_add. destruct (in_int (a + b)); congruence. Qed.

Lemma SimulateSingleGame_result (ai : PokerAI) (w w' : World) (r : Z) :
  SimulateSingleGame ai w = Ret (r, w') -> r = AI_WIN \/ r = AI_LOSE.
Proof.
  unfold SimulateSingleGame.
  destruct (deal (game ai) w) as [[[me opponents] w1]| |]; simpl; try discriminate.
  destruct (BestOpponentHand opponents _ _) as [b| |]; simpl; try discriminate.
  destruct (_ >? b); intros [= <- <-]; auto.
Qed.

(** A game adds one to [simulated] and nought or one to [won]. *)
Lemma play_inv (ai : PokerAI) (w w' : World) (k k' : Worker Timer) :
  play ai w k = Ret (w', k') ->
  timer k' = timer k /\ reads k' = reads k /\
  simulated k' = simulated k + 1 /\
  (won k' = won k \/ won k' = won k + 1).
Proof.
  unfold play.
  destruct (SimulateSingleGame ai w) as [[r w1]| |] eqn:Hgame; simpl; try discriminate.
  destruct (int_add (won k) r) as [won'| |] eqn:Hwon; simpl; try discriminate.
  destruct (int_add (simulated k) 1) as [sim'| |] eqn:Hsim; simpl; try discriminate.
  intros [= <- <-]. simpl.
  apply int_add_inv in Hwon, Hsim.
  apply SimulateSingleGame_result in Hgame. unfold AI_WIN, AI_LOSE in Hgame.
  repeat split; auto. lia.
Qed.

(** The moves of a thread, case by case. *)
Lemma SimulateGames_step_inv (ai ai' : PokerAI) (w w' : World)
      (th th' : Thread Timer) :
  SimulateGames_step ai w th = Ret (ai', w', th') ->
  (th = Created /\ ai' = ai /\
   exists tm, th' = Looping (mkWorker tm 0 0 []))
  \/ (exists k t,
         th = Looping k /\ Z.rem (simulated k) 1000 = 0 /\ timeout ai < t /\
         ai' = ai /\
         th' = Exited (mkWorker (timer k) (simulated k) (won k)
                                ((simulated k, t) :: reads k)))
  \/ (exists k t w1 k',
         th = Looping k /\ Z.rem (simulated k) 1000 = 0 /\ t <= timeout ai /\
         play ai w1 (mkWorker (timer k) (simulated k) (won k)
                              ((simulated k, t) :: reads k)) = Ret (w', k') /\
         ai' = ai /\ th' = Looping k')
  \/ (exists k k',
         th = Looping k /\ Z.rem (simulated k) 1000 <> 0 /\
         play ai w k = Ret (w', k') /\ ai' = ai /\ th' = Looping k')
  \/ (exists k,
         th = Exited k /\ th' = Returned k /\ w' = w /\
         ai' = set_tally ai (games_won ai + won k)
                         (games_simulated ai + simulated k))
  \/ (exists k, th = Returned k /\ th' = Returned k /\ ai' = ai /\ w' = w).
Proof.
  destruct th as [|k|k|k]; simpl.
  - destruct (StartTimer w) as [tm w1]. intros [= <- <- <-]. left. eauto.
  - destruct (Z.eqb_spec (Z.rem (simulated k) 1000) 0) as [Hrem|Hrem].
    + destruct (GetElapsedTime (timer k) w) as [t w1].
      destruct (Z.gtb_spec t (timeout ai)) as [Hgt|Hle].
      * intros [= <- <- <-]. right; left. exists k, t. repeat split; auto; lia.
      * destruct (play ai w1 _) as [[w2 k']| |] eqn:Hplay; simpl; try discriminate.
        intros [= <- <- <-]. right; right; left.
        exists k, t, w1, k'. repeat split; auto.
    + destruct (play ai w k) as [[w2 k']| |] eqn:Hplay; simpl; try discriminate.
      intros [= <- <- <-]. do 3 right; left. exists k, k'. repeat split; auto.
  - destruct (int_add (games_won ai) (won k)) as [gw| |] eqn:Hgw;
      simpl; try discriminate.
    destruct (int_add (games_simulated ai) (simulated k)) as [gs| |] eqn:Hgs;
      simpl; try discriminate.
    intros [= <- <- <-]. apply int_add_inv in Hgw, Hgs. subst.
    do 4 right; left. exists k. repeat split; auto.
  - intros [= <- <- <-]. do 5 right. exists k. repeat split; auto.
Qed.

(** A property of engines that every move keeps holds after every
    schedule. *)
Lemma run_inv (P : Engine World Timer -> Prop) :
  (forall i e e', P e -> step i e = Ret e' -> P e') ->
  forall sched e e', P e -> run sched e = Ret e' -> P e'.
Proof.
  intros Hstep sched. induction sched as [|i sched IH]; intros e e' HP; simpl.
  - now intros [= <-].
  - destruct (step i e) as [e1| |] eqn:Hs; simpl; try discriminate.
    apply IH. eapply Hstep; eauto.
Qed.

Lemma step_inv (i : nat) (e e' : Engine World Timer) :
  step i e = Ret e' ->
  (eng_threads e !! i = None /\ e' = e) \/
  exists th ai' w' th',
    eng_threads e !! i = Some th /\
    SimulateGames_step (eng_ai e) (eng_world e) th = Ret (ai', w', th') /\
    e' = mkEngine ai' w' (<[i := th']> (eng_threads e)).
Proof.
  unfold step. destruct (eng_threads e !! i) as [th|] eqn:Hth.
  - destruct (SimulateGames_step _ _ th) as [[[ai' w'] th']| |] eqn:Hs;
      simpl; try discriminate.
    intros [= <-]. right. exists th, ai', w', th'. auto.
  - intros [= <-]. now left.
Qed.

End Workers.

(** ** The tallies *)

Section Tallies.

Context {host : Host}.

Lemma returned_sum_insert (f : Worker Timer -> Z) (ths : list (Thread Timer)) :
  forall (i : nat) (th th' : Thread Timer),
    ths !! i = Some th ->
    returned_sum f (<[i := th']> ths)
    = returned_sum f ths - contrib f th + contrib f th'.
Proof.
  induction ths as [|x ths IH]; intros [|i] th th' Hth; simpl in *;
    try discriminate.
  - injection Hth as ->. lia.
  - rewrite (IH i th th' Hth). lia.
Qed.

Lemma returned_sum_bounds (ths : list (Thread Timer)) :
  Forall thread_tally_ok ths ->
  tally_ok (returned_sum simulated ths) (returned_sum won ths).
Proof.
  unfold tally_ok. induction 1 as [|th ths Hth _ IH]; simpl; [lia|].
  destruct th; unfold thread_tally_ok, tally_ok in Hth; simpl in *; lia.
Qed.

Lemma returned_sum_created (f : Worker Timer -> Z) (n : nat) :
  returned_sum f (replicate n Created) = 0.
Proof. induction n; simpl; auto. Qed.

Lemma tallies_inv_spawn (ai : PokerAI) (w : World) :
  tallies_inv (spawn (set_tally ai 0 0) w).
Proof.
  unfold tallies_inv, spawn; simpl. rewrite !returned_sum_created.
  repeat split; auto. apply Forall_replicate. exact I.
Qed.

Lemma tallies_inv_step (i : nat) (e e' : Engine World Timer) :
  tallies_inv e -> step i e = Ret e' -> tallies_inv e'.
Proof.
  intros (Hths & Hwon & Hsim) Hstep.
  apply step_inv in Hstep as [[_ ->]|(th & ai' & w' & th' & Hth & Hs & ->)];
    [now repeat split|].
  pose proof (Forall_lookup_1 _ _ _ _ Hths Hth) as Hok.
  unfold tallies_inv; simpl.
  rewrite !(returned_sum_insert _ _ _ _ th' Hth).
  apply SimulateGames_step_inv in Hs
    as [(-> & -> & tm & ->)
       |[(k & t & -> & _ & _ & -> & ->)
        |[(k & t & w1 & k' & -> & _ & _ & Hplay & -> & ->)
         |[(k & k' & -> & _ & Hplay & -> & ->)
          |[(k & -> & -> & -> & ->)
           |(k & -> & -> & -> & ->)]]]]]; simpl.
  - repeat split; try lia. apply Forall_insert; auto.
    unfold thread_tally_ok, tally_ok; simpl; lia.
  - repeat split; try lia. apply Forall_insert; auto.
  - apply play_inv in Hplay as (_ & _ & Hs1 & Hw1). simpl in *.
    repeat split; try lia. apply Forall_insert; auto.
    unfold thread_tally_ok, tally_ok in *; simpl in *. lia.
  - apply play_inv in Hplay as (_ & _ & Hs1 & Hw1).
    repeat split; try lia. apply Forall_insert; auto.
    unfold thread_tally_ok, tally_ok in *; simpl in *. lia.
  - repeat split; try lia. apply Forall_insert; auto.
  - repeat split; try lia. apply Forall_insert; auto.
Qed.

Lemma tallies_inv_run (sched : list nat) (ai : PokerAI) (w : World)
      (e : Engine World Timer) :
  run sched (spawn (set_tally ai 0 0) w) = Ret e -> tallies_inv e.
Proof.
  apply (run_inv tallies_inv).
  - intros i e1 e2. apply tallies_inv_step.
  - apply tallies_inv_spawn.
Qed.

Lemma GetBestAction_policy_tally (winprob : double) (ai ai' : PokerAI) :
  GetBestAction_policy winprob ai = Ret ai' ->
  games_won ai' = games_won ai /\ games_simulated ai' = games_simulated ai.
Proof.
  unfold GetBestAction_policy.
  destruct (double_gt winprob dbl_0_5).
  - destruct (double_to_int _); simpl; try discriminate.
    intros [= <-]. auto.
  - destruct (double_gt winprob dbl_0_25); intros [= <-]; auto.
Qed.

End Tallies.

(** C6.  At every point of a decision cycle the tally of every worker
    and the totals of the AI hold as many games won as games played at
    most, and no negative count; the totals are the sums of the tallies
    of the workers that are back.  So do the totals [GetBestAction]
    decides on.  A simulated game adds one to the games played and
    nought or one to the games won. *)
Theorem tallies_invariant :
  forall host : Host,
    (forall (sched : list nat) (ai : PokerAI) (w : World)
            (e : Engine World Timer),
        run sched (spawn (set_tally ai 0 0) w) = Ret e ->
        (forall th k,
            In th (eng_threads e) -> worker_of th = Some k ->
            tally_ok (simulated k) (won k)) /\
        tally_ok (games_simulated (eng_ai e)) (games_won (eng_ai e)) /\
        games_won (eng_ai e) = returned_sum won (eng_threads e) /\
        games_simulated (eng_ai e) = returned_sum simulated (eng_threads e)) /\
    (forall (sched : list nat) (ai ai' : PokerAI) (w w' : World) (s : string),
        GetBestAction sched ai w = Ret (s, ai', w') ->
        tally_ok (games_simulated ai') (games_won ai')) /\
    (forall (ai : PokerAI) (w w' : World) (k k' : Worker Timer),
        play ai w k = Ret (w', k') ->
        simulated k' = simulated k + 1 /\
        (won k' = won k \/ won k' = won k + 1)).
Proof.
  intros host.
  assert (Hrun : forall sched ai w e,
             run sched (spawn (set_tally ai 0 0) w) = Ret e ->
             tallies_inv e /\
             tally_ok (games_simulated (eng_ai e)) (games_won (eng_ai e))).
  { intros sched ai w e Hrun. apply tallies_inv_run in Hrun as Hinv.
    split; [exact Hinv|]. destruct Hinv as (Hths & -> & ->).
    now apply returned_sum_bounds. }
  split; [|split].
  - intros sched ai w e He. destruct (Hrun _ _ _ _ He) as ((Hths & Hw & Hs) & Hok).
    split; [|auto].
    intros th k Hin Hk. rewrite Forall_forall in Hths.
    rewrite <- list_elem_of_In in Hin. specialize (Hths th Hin).
    unfold thread_tally_ok in Hths. now rewrite Hk in Hths.
  - intros sched ai ai' w w' s. unfold GetBestAction, SpawnMonteCarloThreads.
    destruct (run sched _) as [e| |] eqn:He; simpl; try discriminate.
    destruct (forallb returned (eng_threads e)); simpl; try discriminate.
    destruct (GetBestAction_policy _ _) as [ai2| |] eqn:Hpol; simpl; try discriminate.
    intros [= <- <- <-]. simpl.
    apply GetBestAction_policy_tally in Hpol as [-> ->].
    now destruct (Hrun _ _ _ _ He).
  - intros ai w w' k k' Hplay. now apply play_inv in Hplay.
Qed.

Lemma toy_late_run : run toy_sched (spawn (set_tally toy_ai 0 0) 0%nat) = Ret toy_late.
Proof. vm_compute. reflexivity. Qed.

Lemma toy_first_game :
  play toy_ai 0%nat (mkWorker 0%nat 0 0 []) = Ret (4%nat, mkWorker 0%nat 1 0 []).
Proof. vm_compute. reflexivity. Qed.

Lemma tallies_invariant_witness :
  ((forall th k,
       In th (eng_threads toy_late) -> worker_of th = Some k ->
       tally_ok (simulated k) (won k)) /\
   tally_ok 1000 5 /\
   5 = returned_sum won (eng_threads toy_late) /\
   1000 = returned_sum simulated (eng_threads toy_late)) /\
  tally_ok 1000 1000 /\
  (1 = 0 + 1 /\ (0 = 0 \/ 0 = 0 + 1)).
Proof.
  split; [|split].
  - exact (proj1 (tallies_invariant toy_host) toy_sched toy_ai 0%nat toy_late
                 toy_late_run).
  - exact (proj1 (proj2 (tallies_invariant toy_host)) _ _ _ _ _ _
                 toy_alone_decision).
  - exact (proj2 (proj2 (tallies_invariant toy_host)) _ _ _ _ _ toy_first_game).
Defined.

(** ** The clock *)

Section Clock.

Context {host : Host}.

Lemma check_points_snoc (n : Z) :
  0 <= n ->
  check_points (n + 1)
  = check_points n ++ (if decide (Z.rem n 1000 = 0) then [n] else []).
Proof.
  intros Hn. unfold check_points.
  rewrite seqZ_app by lia. rewrite (seqZ_cons (0 + n) 1) by lia.
  rewrite (seqZ_nil _ (Z.pred 1)) by lia.
  rewrite filter_app. simpl. now rewrite filter_singleton; try exact [].
Qed.

Lemma check_points_multiple (n : Z) :
  Forall (fun k => Z.rem k 1000 = 0) (check_points n).
Proof.
  apply Forall_forall. intros k Hk.
  unfold check_points in Hk. apply list_elem_of_filter in Hk. tauto.
Qed.

Lemma reads_inv_spawn (ai : PokerAI) (w : World) :
  reads_inv (timeout ai) (spawn ai w).
Proof.
  split; [reflexivity|]. simpl. apply Forall_replicate. exact I.
Qed.

Lemma reads_inv_step (t0 : Z) (i : nat) (e e' : Engine World Timer) :
  reads_inv t0 e -> step i e = Ret e' -> reads_inv t0 e'.
Proof.
  intros (Ht0 & Hths) Hstep.
  apply step_inv in Hstep as [[_ ->]|(th & ai' & w' & th' & Hth & Hs & ->)];
    [now split|].
  pose proof (Forall_lookup_1 _ _ _ _ Hths Hth) as Hok.
  unfold reads_inv; simpl.
  apply SimulateGames_step_inv in Hs
    as [(-> & -> & tm & ->)
       |[(k & t & -> & Hrem & Hgt & -> & ->)
        |[(k & t & w1 & k' & -> & Hrem & Hle & Hplay & -> & ->)
         |[(k & k' & -> & Hrem & Hplay & -> & ->)
          |[(k & -> & -> & -> & ->)
           |(k & -> & -> & -> & ->)]]]]]; simpl in *;
    (split; [exact Ht0|]); apply Forall_insert; auto; simpl.
  - repeat split; auto. lia.
  - destruct Hok as (Hpos & Hfst & Hsnd).
    repeat split; auto. exists t, (reads k). repeat split; auto. lia.
  - destruct Hok as (Hpos & Hfst & Hsnd).
    apply play_inv in Hplay as (_ & -> & -> & _). simpl.
    rewrite check_points_snoc by lia.
    destruct (decide (Z.rem (simulated k) 1000 = 0)); [|contradiction].
    rewrite reverse_snoc, Hfst. repeat split; try lia.
    constructor; auto. lia.
  - destruct Hok as (Hpos & Hfst & Hsnd).
    apply play_inv in Hplay as (_ & -> & -> & _).
    rewrite check_points_snoc by lia.
    destruct (decide (Z.rem (simulated k) 1000 = 0)); [contradiction|].
    rewrite app_nil_r. repeat split; auto. lia.
Qed.

Lemma reads_inv_run (sched : list nat) (ai : PokerAI) (w : World)
      (e : Engine World Timer) :
  run sched (spawn ai w) = Ret e -> reads_inv (timeout ai) e.
Proof.
  apply (run_inv (reads_inv (timeout ai))).
  - intros i e1 e2. apply reads_inv_step.
  - apply reads_inv_spawn.
Qed.

Lemma reads_ok_multiples (t0 : Z) (th : Thread Timer) (k : Worker Timer) :
  reads_ok t0 th -> worker_of th = Some k ->
  Forall (fun n => Z.rem n 1000 = 0) (map fst (reads k)).
Proof.
  destruct th as [|k0|k0|k0]; simpl; try discriminate; intros Hok [= <-].
  - destruct Hok as (_ & -> & _).
    apply Forall_reverse, check_points_multiple.
  - destruct Hok as (_ & Hrem & t & rest & -> & _ & Hfst & _). simpl.
    rewrite Hfst. constructor; auto. apply Forall_reverse, check_points_multiple.
  - destruct Hok as (_ & Hrem & t & rest & -> & _ & Hfst & _). simpl.
    rewrite Hfst. constructor; auto. apply Forall_reverse, check_points_multiple.
Qed.

End Clock.

(** C8.  A worker reads the clock only when its count of simulated games
    is a multiple of 1000: a turn of the loop at another count plays a
    game without a read, and every read of every thread is at a multiple
    of 1000 (at each one up to its count, in order).  A turn at a
    multiple of 1000 whose read is beyond the timeout leaves the loop,
    and a thread out of the loop left it at such a read, all its earlier
    reads being within the timeout. *)
Theorem clock_read_every_1000 :
  forall host : Host,
    (forall (ai : PokerAI) (w : World) (k : Worker Timer),
        Z.rem (simulated k) 1000 <> 0 ->
        SimulateGames_step ai w (Looping k)
        = (let* (w, k) := play ai w k in Ret (ai, w, Looping k))) /\
    (forall (ai : PokerAI) (w w1 : World) (k : Worker Timer) (t : Z),
        Z.rem (simulated k) 1000 = 0 ->
        GetElapsedTime (timer k) w = (t, w1) ->
        timeout ai < t ->
        SimulateGames_step ai w (Looping k)
        = Ret (ai, w1,
               Exited (mkWorker (timer k) (simulated k) (won k)
                                ((simulated k, t) :: reads k)))) /\
    (forall (sched : list nat) (ai : PokerAI) (w : World)
            (e : Engine World Timer),
        run sched (spawn ai w) = Ret e ->
        forall th : Thread Timer,
          In th (eng_threads e) ->
          reads_ok (timeout ai) th /\
          (forall k, worker_of th = Some k ->
                     Forall (fun n => Z.rem n 1000 = 0) (map fst (reads k)))).
Proof.
  intros host. split; [|split].
  - intros ai w k Hrem. simpl.
    destruct (Z.eqb_spec (Z.rem (simulated k) 1000) 0); [contradiction|].
    reflexivity.
  - intros ai w w1 k t Hrem Hread Hgt. simpl.
    rewrite Hrem, Hread. simpl.
    destruct (Z.gtb_spec t (timeout ai)); [reflexivity|lia].
  - intros sched ai w e Hrun th Hin.
    apply reads_inv_run in Hrun as (_ & Hths).
    rewrite Forall_forall in Hths. rewrite <- list_elem_of_In in Hin.
    specialize (Hths th Hin). split; [exact Hths|].
    intros k. now apply reads_ok_multiples with (t0 := timeout ai).
Qed.

Lemma clock_read_every_1000_witness :
  (SimulateGames_step toy_ai 7%nat (Looping (mkWorker 0%nat 1 0 [(0, 0)]))
   = (let* (w, k) := play toy_ai 7%nat (mkWorker 0%nat 1 0 [(0, 0)]) in
      Ret (toy_ai, w, Looping k))) /\
  (SimulateGames_step toy_ai (Z.to_nat 4000) (Looping (mkWorker 0%nat 1000 4 [(0, 0)]))
   = Ret (toy_ai, Z.to_nat 4000,
          Exited (mkWorker 0%nat 1000 4 [(1000, 4000); (0, 0)]))) /\
  (forall th : Thread nat,
      In th (eng_threads toy_late) ->
      reads_ok 5 th /\
      (forall k, worker_of th = Some k ->
                 Forall (fun n => Z.rem n 1000 = 0) (map fst (reads k)))).
Proof.
  split; [|split].
  - apply (proj1 (clock_read_every_1000 toy_host) toy_ai 7%nat
                 (mkWorker 0%nat 1 0 [(0, 0)])).
    vm_compute. discriminate.
  - apply (proj1 (proj2 (clock_read_every_1000 toy_host)) toy_ai (Z.to_nat 4000)
                 (Z.to_nat 4000)
                 (mkWorker 0%nat 1000 4 [(0, 0)]) 4000).
    + reflexivity.
    + reflexivity.
    + vm_compute. reflexivity.
  - exact (proj2 (proj2 (clock_read_every_1000 toy_host)) toy_sched toy_ai 0%nat
                 toy_late toy_late_run).
Defined.

(** ** Doubles *)

Lemma pow2_pos (e : Z) : (0 < (2 # 1) ^ e)%Q.
Proof. apply Qpower_0_lt. reflexivity. Qed.

Lemma pow2_scale (m e1 e2 : Z) :
  e1 <= e2 ->
  (inject_Z m * (2 # 1) ^ e2 == inject_Z (m * 2 ^ (e2 - e1)) * (2 # 1) ^ e1)%Q.
Proof.
  intros Hle. rewrite inject_Z_mult, Zpower_Qpower by lia.
  change (inject_Z 2) with (2 # 1)%Q.
  rewrite <- Qmult_assoc, <- Qpower_plus by discriminate.
  now replace (e2 - e1 + e1) with e2 by lia.
Qed.

Lemma digits2_pos_bounds (m : positive) :
  2 ^ (Zpos (digits2_pos m) - 1) <= Zpos m < 2 ^ Zpos (digits2_pos m).
Proof.
  induction m as [m IH|m IH|]; simpl digits2_pos.
  - rewrite Pos2Z.inj_succ.
    replace (Z.succ (Zpos (digits2_pos m)) - 1) with (Z.succ (Zpos (digits2_pos m) - 1))
      by lia.
    rewrite !Z.pow_succ_r by lia. lia.
  - rewrite Pos2Z.inj_succ.
    replace (Z.succ (Zpos (digits2_pos m)) - 1) with (Z.succ (Zpos (digits2_pos m) - 1))
      by lia.
    rewrite !Z.pow_succ_r by lia. lia.
  - simpl. lia.
Qed.

(** The significand of a well-formed double has at most 53 bits, and
    exactly 53 above the least exponent. *)
Lemma bounded_spec (m : positive) (e : Z) :
  bounded dprec demax m e = true ->
  Zpos m < 2 ^ 53 /\ -1074 <= e <= 971 /\ (-1074 < e -> 2 ^ 52 <= Zpos m).
Proof.
  unfold bounded, canonical_mantissa, fexp, emin, dprec, demax.
  intros H. apply andb_true_iff in H as [Hc He].
  apply Z.eqb_eq in Hc. apply Z.leb_le in He.
  pose proof (digits2_pos_bounds m) as [Hlo Hhi].
  set (d := Zpos (digits2_pos m)) in *.
  assert (Hd : d <= 53) by lia.
  split; [|split; [lia|]].
  - apply Z.lt_le_trans with (2 ^ d); auto.
    apply Z.pow_le_mono_r; lia.
  - intros Hmin. assert (d = 53) as Hd53 by lia.
    rewrite Hd53 in Hlo. exact Hlo.
Qed.

(** Between two well-formed positive doubles the one with the smaller
    exponent is the smaller one. *)
Lemma lower_exponent_lt (m1 m2 : positive) (e1 e2 : Z) :
  bounded dprec demax m1 e1 = true ->
  bounded dprec demax m2 e2 = true ->
  e1 < e2 ->
  (inject_Z (Zpos m1) * (2 # 1) ^ e1 < inject_Z (Zpos m2) * (2 # 1) ^ e2)%Q.
Proof.
  intros H1 H2 Hlt.
  apply bounded_spec in H1 as (Hm1 & He1 & _).
  apply bounded_spec in H2 as (_ & _ & Hm2). specialize (Hm2 ltac:(lia)).
  rewrite (pow2_scale (Zpos m2) e1 e2) by lia.
  apply Qmult_lt_compat_r; [apply pow2_pos|].
  rewrite <- Zlt_Qlt.
  assert (Hk : 2 ^ 1 <= 2 ^ (e2 - e1)) by (apply Z.pow_le_mono_r; lia).
  change (2 ^ 1) with 2 in Hk. change (2 ^ 53) with (2 ^ 52 * 2) in Hm1.
  nia.
Qed.

(** [x > c] on doubles is the order of the numbers they stand for, for a
    positive [c]. *)
Lemma double_gt_spec (x : double) (mc : positive) (ec : Z) (qx : Q) :
  double_valid x = true ->
  double_valid (S754_finite false mc ec) = true ->
  double_value x = Some qx ->
  double_gt x (S754_finite false mc ec) = true
  <-> (inject_Z (Zpos mc) * (2 # 1) ^ ec < qx)%Q.
Proof.
  intros Hx Hc Hv. unfold double_gt, SFltb.
  assert (Hcpos : (0 < inject_Z (Zpos mc) * (2 # 1) ^ ec)%Q).
  { apply Qmult_lt_0_compat; [reflexivity | apply pow2_pos]. }
  destruct x as [s| | |s m e]; simpl in Hv; try discriminate;
    injection Hv as <-; simpl.
  - split; [discriminate|]. intros H.
    exfalso. apply (Qlt_irrefl 0). eapply Qlt_trans; eauto.
  - destruct s; simpl.
    + split; [discriminate|]. intros H. exfalso.
      assert (Hneg : (inject_Z (Z.neg m) * (2 # 1) ^ e < 0 * (2 # 1) ^ e)%Q).
      { apply Qmult_lt_compat_r; [apply pow2_pos | reflexivity]. }
      rewrite Qmult_0_l in Hneg.
      apply (Qlt_irrefl 0).
      eapply Qlt_trans; [exact Hcpos|]. eapply Qlt_trans; eauto.
    + simpl in Hx, Hc. unfold double_valid in Hx, Hc. simpl in Hx, Hc.
      destruct (Z.compare_spec ec e) as [Heq|Hlt|Hgt].
      * subst e. rewrite Pos.compare_cont_spec. simpl.
        rewrite Qmult_lt_r by apply pow2_pos. rewrite <- Zlt_Qlt.
        destruct (Pos.compare_spec mc m); split; try discriminate; auto; lia.
      * split; auto. intros _. now apply lower_exponent_lt.
      * split; [discriminate|]. intros H. exfalso.
        apply (Qlt_irrefl (inject_Z (Zpos m) * (2 # 1) ^ e)).
        eapply Qlt_trans; [|exact H]. now apply lower_exponent_lt.
Qed.

(** The cast to [int] of a double that is not below zero is the floor of
    the number it stands for. *)
Lemma double_trunc_floor (x : double) (q : Q) :
  sign_off x ->
  double_value x = Some q ->
  double_trunc x = Some (Qfloor q).
Proof.
  destruct x as [s| | |s m e]; cbn [double_value double_trunc sign_off];
    try discriminate.
  - intros _ [= <-]. reflexivity.
  - intros -> [= <-]. cbn [cond_Zopp]. f_equal.
    destruct (Z.le_gt_cases 0 e) as [He|He].
    + rewrite Z.shiftl_mul_pow2 by lia.
      rewrite <- (Qfloor_Z (Zpos m * 2 ^ e)). apply Qfloor_comp.
      rewrite (pow2_scale (Zpos m) 0 e) by lia.
      rewrite Z.sub_0_r. simpl Qpower. now rewrite Qmult_1_r.
    + replace (Z.shiftl (Zpos m) e) with (Z.shiftr (Zpos m) (- e))
        by (rewrite <- Z.shiftl_opp_r; f_equal; lia).
      rewrite Z.shiftr_div_pow2 by lia.
      rewrite Zdiv_Qdiv. apply Qfloor_comp.
      unfold Qdiv. rewrite Zpower_Qpower by lia.
      change (inject_Z 2) with (2 # 1)%Q.
      rewrite <- Qpower_opp. now replace (- - e) with e by lia.
Qed.

Lemma binary_round_aux_sign (mx ex : Z) (lx : location) :
  sign_off (binary_round_aux dprec demax false mx ex lx).
Proof.
  unfold binary_round_aux.
  destruct (shr_fexp dprec demax mx ex lx) as [mrs e1].
  destruct (shr_fexp dprec demax _ e1 loc_Exact) as [mrs2 e2].
  destruct (shr_m mrs2); simpl; auto.
  destruct (Z.leb e2 _); simpl; auto.
Qed.

Lemma int_to_double_sign (z : Z) : 0 <= z -> sign_off (int_to_double z).
Proof.
  intros Hz. destruct z as [|m|m]; simpl; [exact I| |lia].
  unfold int_to_double, binary_normalize, binary_round.
  destruct (shl_align _ _ _) as [mz ez]. apply binary_round_aux_sign.
Qed.

Lemma double_mul_sign (x : double) (m : positive) (e : Z) :
  sign_off x -> sign_off (double_mul x (S754_finite false m e)).
Proof.
  destruct x as [s| | |s mx ex]; simpl; auto.
  intros ->. apply binary_round_aux_sign.
Qed.

(** A double above zero is a finite number with its sign bit off. *)
Lemma double_value_pos (x : double) (q : Q) :
  double_value x = Some q -> (0 < q)%Q ->
  exists m e, x = S754_finite false m e.
Proof.
  destruct x as [s| | |s m e]; simpl; try discriminate; intros [= <-] Hq.
  - now apply Qlt_irrefl in Hq.
  - destruct s; [|eauto]. exfalso. simpl in Hq.
    assert (Hneg : (inject_Z (Z.neg m) * (2 # 1) ^ e < 0 * (2 # 1) ^ e)%Q).
    { apply Qmult_lt_compat_r; [apply pow2_pos | reflexivity]. }
    rewrite Qmult_0_l in Hneg.
    apply (Qlt_irrefl 0). eapply Qlt_trans; eauto.
Qed.

Lemma dbl_0_5_value : (inject_Z (Zpos 4503599627370496) * (2 # 1) ^ (-53) == 1 # 2)%Q.
Proof. reflexivity. Qed.

Lemma dbl_0_25_value : (inject_Z (Zpos 4503599627370496) * (2 # 1) ^ (-54) == 1 # 4)%Q.
Proof. reflexivity. Qed.

Lemma double_gt_0_5 (x : double) (q : Q) :
  double_valid x = true -> double_value x = Some q ->
  double_gt x dbl_0_5 = true <-> (1 # 2 < q)%Q.
Proof.
  intros Hx Hv. unfold dbl_0_5.
  rewrite (double_gt_spec x 4503599627370496 (-53) q Hx eq_refl Hv).
  now rewrite dbl_0_5_value.
Qed.

Lemma double_gt_0_25 (x : double) (q : Q) :
  double_valid x = true -> double_value x = Some q ->
  double_gt x dbl_0_25 = true <-> (1 # 4 < q)%Q.
Proof.
  intros Hx Hv. unfold dbl_0_25.
  rewrite (double_gt_spec x 4503599627370496 (-54) q Hx eq_refl Hv).
  now rewrite dbl_0_25_value.
Qed.

(** ** The decision *)

(** C1.  For a win probability [p] (the number a well-formed double
    stands for) and a stack that is not negative: above 0.5 the action is
    a bet, and its amount is the floor of the double that the
    multiplication of stack and probability yields, a product rounded to
    a double and so not always the floor of stack times [p]; above 0.25
    and up to 0.5 the action is a call; up to 0.25 it is a fold.  At 0.5
    exactly it is a call, at 0.25 exactly a fold, and at 1.0 with a stack
    of 100 a bet of 100. *)
Theorem GetBestAction_policy_thresholds :
  (forall (ai : PokerAI) (winprob : double) (p : Q),
      double_valid winprob = true ->
      double_value winprob = Some p ->
      ((1 # 2 < p)%Q ->
       0 <= stack (game ai) ->
       forall product : Q,
         double_value (double_mul (int_to_double (stack (game ai))) winprob)
         = Some product ->
         in_int (Qfloor product) = true ->
         GetBestAction_policy winprob ai
         = Ret (set_action ai (mkAction BET (Qfloor product) (str (action ai))))) /\
      ((1 # 4 < p)%Q /\ (p <= 1 # 2)%Q ->
       GetBestAction_policy winprob ai
       = Ret (set_action ai (set_type (action ai) CALL))) /\
      ((p <= 1 # 4)%Q ->
       GetBestAction_policy winprob ai
       = Ret (set_action ai (set_type (action ai) FOLD)))) /\
  (forall ai : PokerAI,
      GetBestAction_policy dbl_0_5 ai
      = Ret (set_action ai (set_type (action ai) CALL))) /\
  (forall ai : PokerAI,
      GetBestAction_policy dbl_0_25 ai
      = Ret (set_action ai (set_type (action ai) FOLD))) /\
  (forall ai : PokerAI,
      stack (game ai) = 100 ->
      GetBestAction_policy dbl_1_0 ai
      = Ret (set_action ai (mkAction BET 100 (str (action ai))))).
Proof.
  split; [|split; [|split]].
  - intros ai winprob p Hvalid Hvalue.
    pose proof (double_gt_0_5 winprob p Hvalid Hvalue) as H05.
    pose proof (double_gt_0_25 winprob p Hvalid Hvalue) as H025.
    unfold GetBestAction_policy. split; [|split].
    + intros Hp Hstack product Hproduct Hint.
      rewrite (proj2 H05 Hp).
      destruct (double_value_pos winprob p Hvalue) as (m & e & ->).
      { eapply Qlt_trans; [|exact Hp]. reflexivity. }
      unfold double_to_int.
      rewrite (double_trunc_floor _ product); auto.
      * now rewrite Hint.
      * apply double_mul_sign, int_to_double_sign, Hstack.
    + intros [Hlo Hhi].
      destruct (double_gt winprob dbl_0_5).
      * exfalso. apply (Qlt_irrefl p).
        eapply Qle_lt_trans; [exact Hhi|]. now apply H05.
      * now rewrite (proj2 H025 Hlo).
    + intros Hhi.
      destruct (double_gt winprob dbl_0_5).
      * exfalso. apply (Qlt_irrefl p).
        eapply Qle_lt_trans; [exact Hhi|]. eapply Qlt_trans; [|now apply H05].
        reflexivity.
      * destruct (double_gt winprob dbl_0_25); [|reflexivity].
        exfalso. apply (Qlt_irrefl p).
        eapply Qle_lt_trans; [exact Hhi|]. now apply H025.
  - reflexivity.
  - reflexivity.
  - intros ai Hstack. unfold GetBestAction_policy. rewrite Hstack. reflexivity.
Qed.

Lemma GetBestAction_policy_thresholds_witness :
  GetBestAction_policy (winprob_of (set_tally toy_ai 2000 3000))
                       (set_tally toy_ai 2000 3000)
  = Ret (set_action (set_tally toy_ai 2000 3000) (mkAction BET 66 "")) /\
  GetBestAction_policy (winprob_of (set_tally toy_ai 900 3000))
                       (set_tally toy_ai 900 3000)
  = Ret (set_action (set_tally toy_ai 900 3000) (mkAction CALL 0 "")) /\
  GetBestAction_policy (winprob_of (set_tally toy_ai 9 2000))
                       (set_tally toy_ai 9 2000)
  = Ret (set_action (set_tally toy_ai 9 2000) (mkAction FOLD 0 "")) /\
  GetBestAction_policy dbl_1_0 toy_ai
  = Ret (set_action toy_ai (mkAction BET 100 "")).
Proof.
  pose proof GetBestAction_policy_thresholds as (Hcases & _ & _ & Hone).
  split; [|split; [|split]].
  - edestruct (Hcases (set_tally toy_ai 2000 3000)
                      (winprob_of (set_tally toy_ai 2000 3000)))
      as (Hbet & _ & _); [reflexivity | vm_compute; reflexivity |].
    specialize (Hbet ltac:(reflexivity) ltac:(vm_compute; discriminate)).
    eassert (Hproduct :
               double_value
                 (double_mul
                    (int_to_double (stack (game (set_tally toy_ai 2000 3000))))
                    (winprob_of (set_tally toy_ai 2000 3000)))
               = Some _) by (vm_compute; reflexivity).
    exact (Hbet _ Hproduct eq_refl).
  - edestruct (Hcases (set_tally toy_ai 900 3000)
                      (winprob_of (set_tally toy_ai 900 3000)))
      as (_ & Hcall & _); [reflexivity | vm_compute; reflexivity |].
    apply Hcall. split; vm_compute; [reflexivity | discriminate].
  - edestruct (Hcases (set_tally toy_ai 9 2000)
                      (winprob_of (set_tally toy_ai 9 2000)))
      as (_ & _ & Hfold); [reflexivity | vm_compute; reflexivity |].
    apply Hfold. vm_compute. discriminate.
  - apply (Hone toy_ai). reflexivity.
Defined.

(** The product is rounded as every double operation is: with two
    games won out of three and a stack of 3 the double product is 2,
    though thrice the double quotient is below 2. *)
Remark double_mul_rounds :
  double_mul (int_to_double 3) (winprob_of (set_tally toy_ai 2000 3000))
  = S754_finite false 4503599627370496 (-51) /\
  (exists p : Q,
      double_value (winprob_of (set_tally toy_ai 2000 3000)) = Some p /\
      (inject_Z 3 * p < inject_Z 2)%Q).
Proof.
  split; [vm_compute; reflexivity|].
  eexists. split; [vm_compute; reflexivity|]. vm_compute. reflexivity.
Qed.

(** The amount of a bet is not always the floor of stack times
    probability.  With 2000 games won of 3000 and a stack of 3 the bet is
    2, while thrice the number the quotient stands for has floor 1; with
    570 games won of 1000 and a stack of 100 the bet is 56, while a
    hundred times 570/1000 is 57. *)
Lemma bet_amount_not_floor :
  (exists p : Q,
      double_value (winprob_of (set_tally toy_ai_short 2000 3000)) = Some p /\
      (1 # 2 < p)%Q /\
      Qfloor (inject_Z (stack (game toy_ai_short)) * p) = 1 /\
      GetBestAction_policy (winprob_of (set_tally toy_ai_short 2000 3000))
                           (set_tally toy_ai_short 2000 3000)
      = Ret (set_action (set_tally toy_ai_short 2000 3000) (mkAction BET 2 ""))) /\
  (1 # 2 < 570 # 1000)%Q /\
  Qfloor (inject_Z (stack (game toy_ai)) * (570 # 1000)) = 57 /\
  GetBestAction_policy (winprob_of (set_tally toy_ai 570 1000))
                       (set_tally toy_ai 570 1000)
  = Ret (set_action (set_tally toy_ai 570 1000) (mkAction BET 56 "")).
Proof.
  split; [|split; [|split]].
  - eexists. split; [vm_compute; reflexivity|].
    split; [vm_compute; reflexivity|].
    split; vm_compute; reflexivity.
  - vm_compute. reflexivity.
  - vm_compute. reflexivity.
  - vm_compute. reflexivity.
Qed.

(** C3.  With no game played in a decision cycle the quotient of the
    totals is 0.0 / 0.0: not the number 0 but a NaN, which no threshold
    is below; the cycle raises no error and the action is a fold. *)
Theorem zero_games_fold :
  forall (host : Host) (sched : list nat) (ai ai1 : PokerAI) (w w1 : World),
    SpawnMonteCarloThreads sched (set_tally ai 0 0) w = Ret (ai1, w1) ->
    games_simulated ai1 = 0 ->
    winprob_of ai1 = S754_nan /\
    double_gt (winprob_of ai1) dbl_0_5 = false /\
    double_gt (winprob_of ai1) dbl_0_25 = false /\
    GetBestAction sched ai w
    = Ret ("action_name=fold"%string,
           set_action ai1 (mkAction FOLD (amount (action ai1)) "action_name=fold"),
           w1).
Proof.
  intros host sched ai ai1 w w1 Hspawn Hsim.
  assert (Hwon : games_won ai1 = 0).
  { unfold SpawnMonteCarloThreads in Hspawn.
    destruct (run sched _) as [e| |] eqn:Hrun; simpl in Hspawn; try discriminate.
    destruct (forallb returned (eng_threads e)); try discriminate.
    injection Hspawn as <- <-.
    apply tallies_inv_run in Hrun as (Hths & Hw & Hs).
    apply returned_sum_bounds in Hths. unfold tally_ok in Hths. lia. }
  assert (Hnan : winprob_of ai1 = S754_nan).
  { unfold winprob_of. rewrite Hwon, Hsim. reflexivity. }
  split; [exact Hnan|]. rewrite Hnan. split; [reflexivity|]. split; [reflexivity|].
  unfold GetBestAction. rewrite Hspawn. cbn [res_bind]. rewrite Hnan. reflexivity.
Qed.

Lemma toy_idle_cycle :
  @SpawnMonteCarloThreads toy_host [] (set_tally toy_idle 0 0) 0%nat
  = Ret (toy_idle, 0%nat).
Proof. reflexivity. Qed.

Lemma zero_games_fold_witness :
  winprob_of toy_idle = S754_nan /\
  double_gt (winprob_of toy_idle) dbl_0_5 = false /\
  double_gt (winprob_of toy_idle) dbl_0_25 = false /\
  @GetBestAction toy_host [] toy_idle 0%nat
  = Ret ("action_name=fold"%string,
         set_action toy_idle (mkAction FOLD 0 "action_name=fold"), 0%nat).
Proof.
  apply (zero_games_fold toy_host [] toy_idle toy_idle 0%nat 0%nat toy_idle_cycle).
  reflexivity.
Defined.

(** The win probability of a cycle without a game is not 0: it stands
    for no number at all. *)
Lemma zero_games_winprob_not_zero :
  @SpawnMonteCarloThreads toy_host [] (set_tally toy_idle 0 0) 0%nat
  = Ret (toy_idle, 0%nat) /\
  games_simulated toy_idle = 0 /\
  winprob_of toy_idle = S754_nan /\
  ~ (exists p : Q, double_value (winprob_of toy_idle) = Some p /\ (p == 0)%Q).
Proof.
  split; [reflexivity|]. split; [reflexivity|]. split; [reflexivity|].
  intros (p & Hp & _). discriminate Hp.
Qed.

(** ** Updates of the game state *)

(** C7.  Updating twice with the same document gives the AI that
    updating once gives: the same game state, and the action unset after
    the first update and after the second. *)
Theorem UpdateGameState_idempotent :
  forall (D : Decoder) (ai : PokerAI) (new_state : cJSON),
    UpdateGameState (UpdateGameState ai new_state) new_state
    = UpdateGameState ai new_state /\
    game (UpdateGameState (UpdateGameState ai new_state) new_state)
    = game (UpdateGameState ai new_state) /\
    type (action (UpdateGameState ai new_state)) = ACTION_UNSET /\
    type (action (UpdateGameState (UpdateGameState ai new_state) new_state))
    = ACTION_UNSET.
Proof.
  intros D ai new_state.
  unfold UpdateGameState, SetGameState, set_game, set_action, set_type; simpl.
  destruct (decode new_state); auto.
Qed.

(** * Further properties *)
(** * Further properties *)

(** ** Actions *)

Lemma format_d_inj (n m : Z) : format_d n = format_d m -> n = m.
Proof.
  intros H. apply (f_equal parse_d) in H.
  rewrite !parse_format_d in H. congruence.
Qed.

(** X1.  Two actions that are set and have the same encoding are the same
    decision: the same kind, and the same amount for a bet.  So the
    encodings of what [ActionSetFold], [ActionSetCall] and [ActionSetBet]
    store differ, but for two bets of the same amount. *)
Theorem ActionGetString_injective :
  (forall a b : Action,
      type a <> ACTION_UNSET -> type b <> ACTION_UNSET ->
      fst (ActionGetString a) = fst (ActionGetString b) ->
      type a = type b /\ (type a = BET -> amount a = amount b)) /\
  (forall (a b : Action) (n m : Z),
      fst (ActionGetString (ActionSetFold a)) <> fst (ActionGetString (ActionSetCall b)) /\
      fst (ActionGetString (ActionSetFold a)) <> fst (ActionGetString (ActionSetBet b m)) /\
      fst (ActionGetString (ActionSetCall a)) <> fst (ActionGetString (ActionSetBet b m)) /\
      (fst (ActionGetString (ActionSetBet a n)) = fst (ActionGetString (ActionSetBet b m)) ->
       n = m)).
Proof.
  assert (Hinj : forall a b : Action,
             type a <> ACTION_UNSET -> type b <> ACTION_UNSET ->
             fst (ActionGetString a) = fst (ActionGetString b) ->
             type a = type b /\ (type a = BET -> amount a = amount b)).
  { intros a b Ha Hb. unfold ActionGetString, action_text; simpl.
    destruct (type a), (type b); simpl; try congruence;
      intros H; try discriminate H; split; auto; try discriminate.
    intros _. repeat (injection H as H). now apply format_d_inj. }
  split; [exact Hinj|].
  intros a b n m. repeat split; try discriminate.
  intros H. apply Hinj in H as [_ H]; try discriminate. now apply H.
Qed.

Lemma ActionGetString_injective_witness :
  type (mkAction BET 75 "") = type (mkAction BET 75 "x") /\
  (type (mkAction BET 75 "") = BET ->
   amount (mkAction BET 75 "") = amount (mkAction BET 75 "x")).
Proof.
  apply (proj1 ActionGetString_injective);
    [discriminate | discriminate | reflexivity].
Defined.

Lemma GetBestAction_action (host : Host) (sched : list nat) (ai ai' : PokerAI)
      (w w' : World) (s : string) :
  GetBestAction sched ai w = Ret (s, ai', w') ->
  type (action ai') <> ACTION_UNSET /\ s = action_text (action ai').
Proof.
  unfold GetBestAction.
  destruct (SpawnMonteCarloThreads _ _ _) as [[ai1 w1]| |]; simpl; try discriminate.
  destruct (GetBestAction_policy _ _) as [ai2| |] eqn:Hpol; simpl; try discriminate.
  intros [= <- <- <-]. apply GetBestAction_policy_type in Hpol. simpl. auto.
Qed.

(** X2.  What [WriteAction] prints after a decision names the decision
    that [GetBestAction] has returned as a string, with the same amount
    for a bet, and is never "No action set"; for an action that is not
    set the two disagree: [WriteAction] prints "No action set" while the
    encoding is the one of a fold. *)
Theorem WriteAction_agrees :
  (forall (host : Host) (sched : list nat) (ai ai' : PokerAI) (w w' : World)
          (s : string),
      GetBestAction sched ai w = Ret (s, ai', w') ->
      (s = "action_name=fold" /\
       WriteAction ai' = "ACTION:" ++ tab ++ "FOLDING" ++ newline) \/
      (s = "action_name=call" /\
       WriteAction ai' = "ACTION:" ++ tab ++ "CALLING" ++ newline) \/
      (exists n : Z,
          s = "action_name=bet&amount=" ++ format_d n /\
          WriteAction ai' = "ACTION:" ++ tab ++ "BETTING " ++ format_d n ++ newline))%string /\
  (forall (D : Decoder) (ai : PokerAI) (new_state : cJSON),
      WriteAction (UpdateGameState ai new_state) = ("No action set" ++ newline)%string /\
      fst (ActionGetString (action (UpdateGameState ai new_state)))
      = "action_name=fold"%string).
Proof.
  split.
  - intros host sched ai ai' w w' s Hrun.
    apply GetBestAction_action in Hrun as [Hset ->].
    unfold WriteAction, action_text.
    destruct (type (action ai')); try congruence; eauto.
  - intros D ai new_state. split; reflexivity.
Qed.

Lemma WriteAction_agrees_witness :
  (("action_name=bet&amount=100" = "action_name=fold" /\
   WriteAction (set_tally (set_action toy_ai_alone
                             (mkAction BET 100 "action_name=bet&amount=100"))
                          1000 1000)
   = "ACTION:" ++ tab ++ "FOLDING" ++ newline) \/
  ("action_name=bet&amount=100" = "action_name=call" /\
   WriteAction (set_tally (set_action toy_ai_alone
                             (mkAction BET 100 "action_name=bet&amount=100"))
                          1000 1000)
   = "ACTION:" ++ tab ++ "CALLING" ++ newline) \/
  (exists n : Z,
      "action_name=bet&amount=100" = "action_name=bet&amount=" ++ format_d n /\
      WriteAction (set_tally (set_action toy_ai_alone
                                (mkAction BET 100 "action_name=bet&amount=100"))
                             1000 1000)
      = "ACTION:" ++ tab ++ "BETTING " ++ format_d n ++ newline))%string.
Proof.
  exact (proj1 WriteAction_agrees toy_host _ _ _ _ _ _ toy_alone_decision).
Defined.

(** ** Loops that leave defined behaviour *)

Lemma for_loop_stuck {St : Type} (I : Z -> St -> Prop) (body : Z -> St -> res St)
      (k : Z) (n : nat) :
  forall (i : Z) (s : St),
    I i s ->
    i <= k < i + Z.of_nat n ->
    (forall j s1, i <= j < k -> I j s1 ->
                  exists s2, body j s1 = Ret s2 /\ I (j + 1) s2) ->
    (forall s1, I k s1 -> body k s1 = Undef) ->
    for_loop n i body s = Undef.
Proof.
  induction n as [|n IH]; intros i s Hi Hk Hstep Hstuck; [lia|].
  simpl. destruct (Z.eq_dec i k) as [->|Hne].
  - now rewrite Hstuck.
  - destruct (Hstep i s) as (s1 & -> & Hi1); [lia|auto|]. simpl.
    apply IH; auto; [lia|]. intros j s2 Hj. apply Hstep. lia.
Qed.

(** ** The best opponent *)

Lemma max_score_snoc (l : list Z) (x : Z) :
  max_score (l ++ [x]) = Z.max (max_score l) x.
Proof.
  unfold max_score. induction l as [|a l IH]; simpl; [lia|]. rewrite IH. lia.
Qed.

Lemma max_score_nonneg (l : list Z) : 0 <= max_score l.
Proof. unfold max_score. induction l; simpl; lia. Qed.

Lemma BestOpponentHand_closed {host : Host} (opponents : list (list Z))
      (n nc : Z) :
  n <= Z.of_nat (length opponents) ->
  BestOpponentHand opponents n nc
  = Ret (max_score (opponent_scores opponents n nc)).
Proof.
  intros Hlen. destruct (Z.le_gt_cases n 0) as [Hn|Hn].
  - unfold BestOpponentHand. rewrite for_range_empty by lia.
    unfold opponent_scores. now replace (Z.to_nat n) with O by lia.
  - unfold BestOpponentHand.
    match goal with
    | |- context [for_range ?lo ?hi ?body ?s] =>
        destruct (for_range_ret
                    (fun i m => m = max_score (opponent_scores opponents i nc))
                    body lo hi s) as (m & Hrun & ->); [lia|reflexivity| |]
    end; [|now rewrite Hrun].
    intros j m Hj ->.
    destruct (arr_get_Some opponents j) as (cards & Hget & _); [lia|].
    rewrite Hget. simpl. eexists. split; [reflexivity|].
    rewrite (opponent_scores_snoc _ _ _ _ Hget), max_score_snoc.
    unfold score_of. destruct (Z.gtb_spec (GetHandValue (take (Z.to_nat nc) cards))
                                           (max_score (opponent_scores opponents j nc)));
      lia.
Qed.

(** X3.  [BestOpponentHand] returns the greatest score of the first
    [numopponents] hands, and 0 when no score is above 0: so 0 without an
    opponent, and never a negative score.  It reads past the array, which
    is undefined, when [numopponents] is more than the hands there are. *)
Theorem BestOpponentHand_max :
  forall (host : Host) (opponents : list (list Z)) (numopponents numcards : Z),
    (numopponents <= Z.of_nat (length opponents) ->
     BestOpponentHand opponents numopponents numcards
     = Ret (max_score (opponent_scores opponents numopponents numcards)) /\
     0 <= max_score (opponent_scores opponents numopponents numcards)) /\
    (numopponents <= 0 ->
     BestOpponentHand opponents numopponents numcards = Ret 0) /\
    (Z.of_nat (length opponents) < numopponents ->
     BestOpponentHand opponents numopponents numcards = Undef).
Proof.
  intros host opponents n nc.
  split; [|split].
  - intros Hlen. split; [now apply BestOpponentHand_closed | apply max_score_nonneg].
  - intros Hn. unfold BestOpponentHand. now rewrite for_range_empty by lia.
  - intros Hlen. unfold BestOpponentHand, for_range.
    apply (for_loop_stuck (fun _ _ => True) _ (Z.of_nat (length opponents)));
      auto; [lia| |].
    + intros j m Hj _.
      destruct (arr_get_Some opponents j) as (cards & Hget & _); [lia|].
      rewrite Hget. simpl. eauto.
    + intros m _. unfold arr_get.
      destruct (Z.ltb_spec (Z.of_nat (length opponents)) 0); [reflexivity|].
      rewrite Nat2Z.id, lookup_ge_None_2 by lia. reflexivity.
Qed.

Lemma BestOpponentHand_max_witness :
  @BestOpponentHand toy_host [[1; 2]; [5; 6]; [3; 4]] 2 2 = Ret 12 /\
  @BestOpponentHand toy_host [[1; 2]; [5; 6]; [3; 4]] 0 2 = Ret 0 /\
  @BestOpponentHand toy_host [[1; 2]; [5; 6]; [3; 4]] 4 2 = Undef.
Proof.
  pose proof (BestOpponentHand_max toy_host [[1; 2]; [5; 6]; [3; 4]]) as H.
  split; [|split].
  - apply (proj1 (H 2 2)). simpl. lia.
  - apply (proj1 (proj2 (H 0 2))). lia.
  - apply (proj2 (proj2 (H 4 2))). simpl. lia.
Defined.

(** ** Drawing past the pool *)

(** X4.  Drawing [k] cards from a pool of [N >= k] leaves [N - k] cards,
    and the cards drawn with the cards left are the cards of the pool;
    drawing more cards than the pool holds is undefined (the draw from
    the empty pool divides by zero). *)
Theorem draw_n_bounds :
  forall (host : Host) (k : nat) (deck : list Z) (psize : Z) (w : World),
    rand_nonneg host ->
    0 <= psize <= Z.of_nat (length deck) ->
    (Z.of_nat k <= psize ->
     exists cs deck' w',
       draw_n k deck psize w = Ret (cs, deck', psize - Z.of_nat k, w') /\
       length cs = k /\
       Permutation (pool_of deck psize)
                   (cs ++ pool_of deck' (psize - Z.of_nat k))) /\
    (psize < Z.of_nat k -> draw_n k deck psize w = Undef).
Proof.
  intros host k deck psize w Hrand Hsz. split.
  - intros Hk.
    destruct (draw_n_spec Hrand k deck psize w)
      as (cs & deck' & w' & Hrun & Hlen & _ & Hperm); [lia|].
    exists cs, deck', w'. auto.
  - revert deck psize w Hsz.
    induction k as [|k IH]; intros deck psize w Hsz Hk; [lia|].
    cbn [draw_n]. destruct (Z.eq_dec psize 0) as [->|Hne].
    + unfold draw. destruct (rand w). reflexivity.
    + destruct (draw_spec Hrand deck psize w) as (c & deck1 & -> & Hlen & _); [lia|].
      cbn [res_bind]. rewrite IH; [reflexivity|lia|lia].
Qed.

Lemma draw_n_bounds_witness :
  (exists cs deck' w',
      @draw_n toy_host 2 [11; 22; 33; 44] 3 0%nat = Ret (cs, deck', 3 - 2, w') /\
      length cs = 2%nat /\
      Permutation (pool_of [11; 22; 33; 44] 3) (cs ++ pool_of deck' (3 - 2))) /\
  @draw_n toy_host 4 [11; 22; 33; 44] 3 0%nat = Undef.
Proof.
  assert (Hrand : rand_nonneg toy_host).
  { intros w. simpl. apply Z.mod_pos_bound. lia. }
  split.
  - apply (proj1 (draw_n_bounds toy_host 2 [11; 22; 33; 44] 3 0%nat Hrand
                    ltac:(simpl; lia))). lia.
  - apply (proj2 (draw_n_bounds toy_host 4 [11; 22; 33; 44] 3 0%nat Hrand
                    ltac:(simpl; lia))). lia.
Defined.

(** ** The deck array *)

Section DeckArray.

Context {host : Host}.

Lemma deck_upto_size (game : GameState) (j : Z) (s : list Z * Z) :
  0 <= j -> deck_upto game j s -> 0 <= snd s <= j.
Proof.
  intros Hj (_ & _ & Hd). rewrite Hd.
  pose proof (length_filter (unseen game) (seqZ 1 j)) as Hf.
  rewrite length_seqZ in Hf. lia.
Qed.

Lemma deck_full_step (game : GameState) (j : Z) (p : list Z) (d : Z) :
  0 <= j < 52 ->
  j < Z.of_nat (length (deck game)) ->
  deck_full game j (p, d) ->
  exists s2,
    (let* unseen := of_option (arr_get (deck game) j) in
     if unseen : bool then
       let* pool := of_option (arr_set p d (j + 1)) in
       Ret (pool, d + 1)
     else Ret (p, d)) = Ret s2 /\
    deck_full game (j + 1) s2.
Proof.
  intros Hj Hlen [Hupto Hdrop]. simpl in Hdrop.
  pose proof (deck_upto_size game j (p, d) ltac:(lia) Hupto) as Hd. simpl in Hd.
  assert (Hp : length p = 52%nat) by apply Hupto.
  destruct (arr_get_Some (deck game) j) as (flag & Hflag & _); [lia|].
  assert (Hbody : exists s2,
    (let* unseen := of_option (arr_get (deck game) j) in
     if unseen : bool then
       let* pool := of_option (arr_set p d (j + 1)) in
       Ret (pool, d + 1)
     else Ret (p, d)) = Ret s2 /\
    drop (Z.to_nat (snd s2)) (fst s2) = replicate (52 - Z.to_nat (snd s2)) 0).
  { rewrite Hflag. simpl. destruct flag; [|eauto].
    rewrite arr_set_Some by lia. simpl. eexists. split; [reflexivity|]. simpl.
    replace (Z.to_nat (d + 1)) with (Z.to_nat d + 1)%nat by lia.
    rewrite drop_insert_lt by lia.
    rewrite <- drop_drop, Hdrop, drop_replicate.
    f_equal. lia. }
  destruct Hbody as (s2 & Hs2 & Hdrop2). exists s2. split; [exact Hs2|].
  split; [|exact Hdrop2].
  eapply (deck_upto_step game j (p, d)); eauto. lia.
Qed.

Lemma fill_deck_closed (game : GameState) :
  0 <= NUM_DECK <= 52 ->
  NUM_DECK <= Z.of_nat (length (deck game)) ->
  fill_deck game
  = Ret (unseen_cards game ++ replicate (52 - length (unseen_cards game)) 0,
         Z.of_nat (length (unseen_cards game))) /\
  Z.of_nat (length (unseen_cards game)) <= NUM_DECK.
Proof.
  intros [Hn Hn52] Hlen. unfold fill_deck.
  match goal with
  | |- context [for_range ?lo ?hi ?body ?s] =>
      destruct (for_range_ret (deck_full game) body lo hi s)
        as ([pool ds] & Hrun & [Hupto Hdrop]); [lia| | |]
  end.
  - split; [repeat split|reflexivity].
  - intros j [p d] Hj Hinv. apply deck_full_step; auto; lia.
  - pose proof (deck_upto_size game NUM_DECK (pool, ds) Hn Hupto) as Hsz.
    destruct Hupto as (Hp & Hpool & Hds). simpl in *.
    fold (unseen_cards game) in Hpool, Hds.
    split; [|lia]. rewrite Hrun. f_equal.
    rewrite <- (take_drop (Z.to_nat ds) pool) at 1.
    unfold pool_of in Hpool. rewrite Hpool, Hdrop, Hds, Nat2Z.id.
    reflexivity.
Qed.

End DeckArray.

(** X5.  With at most 52 cards in the game and a flag for each of them,
    the deck array of a simulated game is the unseen cards in increasing
    order, followed by zeros, and its size is their number.  With fewer
    flags than cards the loop reads past the flags, which is undefined. *)
Theorem fill_deck_array :
  forall (host : Host) (game : GameState),
    0 <= NUM_DECK ->
    (NUM_DECK <= 52 ->
     NUM_DECK <= Z.of_nat (length (deck game)) ->
     fill_deck game
     = Ret (unseen_cards game
              ++ replicate (52 - length (unseen_cards game)) 0,
            Z.of_nat (length (unseen_cards game))) /\
     Z.of_nat (length (unseen_cards game)) <= NUM_DECK) /\
    (Z.of_nat (length (deck game)) < NUM_DECK ->
     (length (deck game) <= 52)%nat ->
     fill_deck game = Undef).
Proof.
  intros host game Hn. split.
  - intros Hn52 Hlen. apply fill_deck_closed; lia.
  - intros Hlen H52. unfold fill_deck, for_range.
    apply (for_loop_stuck (deck_full game) _ (Z.of_nat (length (deck game))));
      [split; [repeat split|reflexivity] | lia | |].
    + intros j [p d] Hj Hinv. apply deck_full_step; auto; lia.
    + intros [p d] _. unfold arr_get.
      destruct (Z.ltb_spec (Z.of_nat (length (deck game))) 0); [reflexivity|].
      rewrite Nat2Z.id, lookup_ge_None_2 by lia. reflexivity.
Qed.

Lemma fill_deck_array_witness :
  (@fill_deck toy_host toy_game
   = Ret (@unseen_cards toy_host toy_game
            ++ replicate (52 - length (@unseen_cards toy_host toy_game)) 0,
          Z.of_nat (length (@unseen_cards toy_host toy_game))) /\
   Z.of_nat (length (@unseen_cards toy_host toy_game)) <= 52) /\
  @fill_deck toy_host (mkGameState [1; 14] [] 0 [true; false] 0 100 true) = Undef.
Proof.
  split.
  - apply (proj1 (fill_deck_array toy_host toy_game ltac:(simpl; lia)));
      simpl; lia.
  - apply (proj2 (fill_deck_array toy_host
                    (mkGameState [1; 14] [] 0 [true; false] 0 100 true)
                    ltac:(simpl; lia))); simpl; lia.
Defined.

(** ** The decision cycle as a whole *)

Section Cycle.

Context {host : Host}.

Lemma frame_inv_step (ai0 : PokerAI) (i : nat) (e e' : Engine World Timer) :
  frame_inv ai0 e -> step i e = Ret e' -> frame_inv ai0 e'.
Proof.
  intros (Hg & Hn & Ht & Ha & Hl) Hstep.
  apply step_inv in Hstep as [[_ ->]|(th & ai' & w' & th' & Hth & Hs & ->)];
    [now repeat split|].
  unfold frame_inv; simpl. rewrite length_insert.
  apply SimulateGames_step_inv in Hs
    as [(-> & -> & tm & ->)
       |[(k & t & -> & _ & _ & -> & ->)
        |[(k & t & w1 & k' & -> & _ & _ & _ & -> & ->)
         |[(k & k' & -> & _ & _ & -> & ->)
          |[(k & -> & -> & -> & ->)
           |(k & -> & -> & -> & ->)]]]]]; simpl; auto.
Qed.

Lemma frame_inv_run (sched : list nat) (ai : PokerAI) (w : World)
      (e : Engine World Timer) :
  run sched (spawn ai w) = Ret e -> frame_inv ai e.
Proof.
  apply (run_inv (frame_inv ai)).
  - intros i e1 e2. apply frame_inv_step.
  - unfold frame_inv, spawn; simpl. now rewrite length_replicate.
Qed.



End Cycle.




(** X7.  A decision cycle changes the action and the totals of the AI
    and nothing else: the game state, the number of threads and the
    timeout are the ones it started with, and the string returned is the
    one left in the buffer of the action. *)
Theorem GetBestAction_frame :
  forall (host : Host) (sched : list nat) (ai ai' : PokerAI) (w w' : World)
         (s : string),
    GetBestAction sched ai w = Ret (s, ai', w') ->
    game ai' = game ai /\
    num_threads ai' = num_threads ai /\
    timeout ai' = timeout ai /\
    str (action ai') = s.
Proof.
  intros host sched ai ai' w w' s. unfold GetBestAction, SpawnMonteCarloThreads.
  destruct (run sched _) as [e| |] eqn:Hrun; simpl; try discriminate.
  destruct (forallb returned (eng_threads e)); simpl; try discriminate.
  apply frame_inv_run in Hrun as (Hg & Hn & Ht & _).
  unfold GetBestAction_policy.
  destruct (double_gt _ dbl_0_5).
  - destruct (double_to_int _); simpl; try discriminate.
    intros [= <- <- <-]. simpl. auto.
  - destruct (double_gt _ dbl_0_25); simpl; intros [= <- <- <-]; simpl; auto.
Qed.

Lemma GetBestAction_frame_witness :
  game (set_tally (set_action toy_ai_alone
                     (mkAction BET 100 "action_name=bet&amount=100")) 1000 1000)
  = game toy_ai_alone /\
  num_threads (set_tally (set_action toy_ai_alone
                     (mkAction BET 100 "action_name=bet&amount=100")) 1000 1000)
  = num_threads toy_ai_alone /\
  timeout (set_tally (set_action toy_ai_alone
                     (mkAction BET 100 "action_name=bet&amount=100")) 1000 1000)
  = timeout toy_ai_alone /\
  str (action (set_tally (set_action toy_ai_alone
                     (mkAction BET 100 "action_name=bet&amount=100")) 1000 1000))
  = "action_name=bet&amount=100"%string.
Proof.
  exact (GetBestAction_frame toy_host _ _ _ _ _ _ toy_alone_decision).
Defined.

(** ** A timeout that has passed *)

Section Expired.

Context {host : Host}.

(** Three moves of a thread that finds the timeout passed at its first
    look at the clock: it starts, leaves the loop and adds its empty tally. *)
Lemma retire_thread (ai : PokerAI) (w : World) (done rest : list (Thread Timer)) :
  expired host (timeout ai) ->
  exists (w' : World) (k : Worker Timer),
    run [length done; length done; length done]
        (mkEngine (set_tally ai 0 0) w (done ++ Created :: rest))
    = Ret (mkEngine (set_tally ai 0 0) w' (done ++ Returned k :: rest)) /\
    simulated k = 0 /\ won k = 0.
Proof.
  intros Hexp.
  destruct (StartTimer w) as [tm w1] eqn:Hstart.
  destruct (GetElapsedTime tm w1) as [t w2] eqn:Hread.
  assert (Hgt : timeout ai < t).
  { specialize (Hexp tm w1). now rewrite Hread in Hexp. }
  exists w2, (mkWorker tm 0 0 [(0, t)]).
  split; [|split; reflexivity].
  assert (Hins : forall th th' : Thread Timer,
             <[length done := th']> (done ++ th :: rest) = done ++ th' :: rest).
  { intros th th'. rewrite insert_app_r_alt by lia.
    now rewrite Nat.sub_diag. }
  assert (Hlook : forall th : Thread Timer,
             (done ++ th :: rest) !! length done = Some th).
  { intros th. rewrite lookup_app_r by lia. now rewrite Nat.sub_diag. }
  cbn [run]. unfold step at 1. cbn [eng_threads eng_ai eng_world].
  rewrite Hlook. cbn [SimulateGames_step]. rewrite Hstart. cbn [res_bind].
  rewrite Hins.
  unfold step at 1. cbn [eng_threads eng_ai eng_world].
  rewrite Hlook. cbn [SimulateGames_step simulated timer won reads].
  change (Z.rem 0 1000 =? 0) with true. cbn iota. rewrite Hread.
  replace (t >? timeout (set_tally ai 0 0)) with true
    by (symmetry; apply Z.gtb_lt; exact Hgt).
  cbn [res_bind]. rewrite Hins.
  unfold step at 1. cbn [eng_threads eng_ai eng_world].
  rewrite Hlook.
  cbn [SimulateGames_step games_won games_simulated set_tally won simulated].
  change (int_add 0 0) with (Ret 0). cbn [res_bind]. rewrite Hins. reflexivity.
Qed.

Lemma retire_all (ai : PokerAI) (m : nat) :
  expired host (timeout ai) ->
  forall (w : World) (done : list (Thread Timer)),
    Forall idle done ->
    exists (w' : World) (ths : list (Thread Timer)),
      run (three_each (length done) m)
          (mkEngine (set_tally ai 0 0) w (done ++ replicate m Created))
      = Ret (mkEngine (set_tally ai 0 0) w' ths) /\
      Forall idle ths.
Proof.
  intros Hexp. induction m as [|m IH]; intros w done Hdone.
  - exists w, done. simpl. rewrite app_nil_r. auto.
  - destruct (retire_thread ai w done (replicate m Created) Hexp)
      as (w1 & k & Hrun & Hs & Hw).
    destruct (IH w1 (done ++ [Returned k])) as (w2 & ths & Hrun2 & Hths).
    { apply Forall_app. split; auto. constructor; auto. exists k. auto. }
    exists w2, ths. split; [|exact Hths].
    rewrite length_app in Hrun2. simpl in Hrun2.
    rewrite <- app_assoc in Hrun2. simpl in Hrun2.
    unfold three_each in *. cbn [seq flat_map replicate].
    cbn [app]. cbn [run] in Hrun |- *.
    destruct (step (length done) _) as [e1| |]; cbn [res_bind] in *; try discriminate.
    destruct (step (length done) e1) as [e2| |]; cbn [res_bind] in *; try discriminate.
    destruct (step (length done) e2) as [e3| |]; cbn [res_bind] in *; try discriminate.
    injection Hrun as ->.
    now replace (S (length done)) with (length done + 1)%nat by lia.
Qed.

Lemma idle_returned (ths : list (Thread Timer)) :
  Forall idle ths -> forallb returned ths = true.
Proof.
  induction 1 as [|th ths (k & -> & _) _ IH]; simpl; auto.
Qed.

End Expired.

(** X8.  When the clock is past the timeout at the first reading of every
    worker (a timeout below zero, say), the cycle that runs the threads
    one after the other plays no game: it returns the fold token, with
    totals of 0 and nothing else changed in the AI. *)
Theorem expired_cycle_folds :
  forall (host : Host) (ai : PokerAI) (w : World),
    expired host (timeout ai) ->
    exists w' : World,
      GetBestAction (three_each 0 (Z.to_nat (num_threads ai))) ai w
      = Ret ("action_name=fold"%string,
             set_action (set_tally ai 0 0)
                        (mkAction FOLD (amount (action ai)) "action_name=fold"),
             w').
Proof.
  intros host ai w Hexp.
  destruct (retire_all ai (Z.to_nat (num_threads ai)) Hexp w [])
    as (w' & ths & Hrun & Hths); [constructor|].
  exists w'. unfold GetBestAction, SpawnMonteCarloThreads, spawn.
  simpl in Hrun. cbn [num_threads set_tally]. rewrite Hrun. cbn [res_bind eng_threads].
  rewrite (idle_returned ths Hths). reflexivity.
Qed.

Lemma expired_cycle_folds_witness :
  exists w' : nat,
    @GetBestAction toy_host (three_each 0 2) toy_late_ai 0%nat
    = Ret ("action_name=fold"%string,
           set_action (set_tally toy_late_ai 0 0)
                      (mkAction FOLD 0 "action_name=fold"),
           w').
Proof.
  apply (expired_cycle_folds toy_host toy_late_ai 0%nat).
  intros tm w. simpl. lia.
Defined.

(** ** The size of a bet and the order of the decisions *)

Lemma double_gt_0_5_shape (x : double) :
  double_gt x dbl_0_5 = true ->
  x = S754_infinity false \/ exists m e, x = S754_finite false m e.
Proof.
  unfold double_gt, SFltb, dbl_0_5.
  destruct x as [s|s| |s m e]; simpl; try discriminate.
  - destruct s; try discriminate. auto.
  - destruct s; try discriminate. eauto.
Qed.

Lemma double_trunc_nonneg (x : double) (t : Z) :
  sign_off x -> double_trunc x = Some t -> 0 <= t.
Proof.
  destruct x as [s| | |s m e]; simpl; try discriminate.
  - intros _ [= <-]. lia.
  - intros -> [= <-]. simpl. apply Z.shiftl_nonneg. lia.
Qed.

(** X9.  With a stack that is not negative a bet is never of a negative
    amount, and the amount is an [int]; a call and a fold leave the
    amount of the action as it was. *)
Theorem bet_amount_range :
  forall (winprob : double) (ai ai' : PokerAI),
    0 <= stack (game ai) ->
    GetBestAction_policy winprob ai = Ret ai' ->
    (type (action ai') = BET -> 0 <= amount (action ai') <= INT_MAX) /\
    (type (action ai') <> BET -> amount (action ai') = amount (action ai)).
Proof.
  intros winprob ai ai' Hstack. unfold GetBestAction_policy.
  destruct (double_gt winprob dbl_0_5) eqn:Hgt.
  - unfold double_to_int.
    destruct (double_trunc _) as [t|] eqn:Ht; simpl; try discriminate.
    destruct (in_int t) eqn:Hint; simpl; try discriminate.
    intros [= <-]. simpl. split; [|congruence]. intros _.
    unfold in_int in Hint. apply andb_true_iff in Hint as [_ Hmax].
    apply Z.leb_le in Hmax. split; [|exact Hmax].
    apply double_gt_0_5_shape in Hgt as [->|(m & e & ->)].
    + exfalso. revert Ht. pose proof (int_to_double_sign _ Hstack) as Hs.
      destruct (int_to_double (stack (game ai))) as [s| | |s mx ex];
        simpl; discriminate.
    + eapply double_trunc_nonneg; [|exact Ht].
      apply double_mul_sign, int_to_double_sign, Hstack.
  - destruct (double_gt winprob dbl_0_25); intros [= <-]; simpl;
      split; auto; discriminate.
Qed.

Lemma bet_amount_range_witness :
  (type (mkAction BET 66 "") = BET -> 0 <= amount (mkAction BET 66 "") <= INT_MAX) /\
  (type (mkAction BET 66 "") <> BET ->
   amount (mkAction BET 66 "") = amount toy_action).
Proof.
  apply (bet_amount_range (winprob_of (set_tally toy_ai 2000 3000))
           (set_tally toy_ai 2000 3000)
           (set_action (set_tally toy_ai 2000 3000) (mkAction BET 66 ""))).
  - simpl. lia.
  - vm_compute. reflexivity.
Defined.

(** X10.  The decision grows with the win probability: of two
    probabilities the greater one never gets the lesser decision, in the
    order fold, call, bet. *)
Theorem GetBestAction_policy_monotone :
  forall (x y : double) (p q : Q) (ai ax ay : PokerAI),
    double_valid x = true -> double_value x = Some p ->
    double_valid y = true -> double_value y = Some q ->
    (p <= q)%Q ->
    GetBestAction_policy x ai = Ret ax ->
    GetBestAction_policy y ai = Ret ay ->
    rank (type (action ax)) <= rank (type (action ay)).
Proof.
  intros x y p q ai ax ay Hx Hp Hy Hq Hle.
  pose proof (double_gt_0_5 x p Hx Hp) as Hx5.
  pose proof (double_gt_0_25 x p Hx Hp) as Hx25.
  pose proof (double_gt_0_5 y q Hy Hq) as Hy5.
  pose proof (double_gt_0_25 y q Hy Hq) as Hy25.
  unfold GetBestAction_policy.
  destruct (double_gt x dbl_0_5).
  - rewrite (proj2 Hy5) by (eapply Qlt_le_trans; [now apply Hx5 | exact Hle]).
    destruct (double_to_int _); simpl; try discriminate. intros [= <-].
    destruct (double_to_int _); simpl; try discriminate. intros [= <-].
    simpl. lia.
  - destruct (double_gt x dbl_0_25).
    + intros [= <-].
      destruct (double_gt y dbl_0_5).
      * destruct (double_to_int _); simpl; try discriminate. intros [= <-].
        simpl. lia.
      * rewrite (proj2 Hy25)
          by (eapply Qlt_le_trans; [now apply Hx25 | exact Hle]).
        intros [= <-]. simpl. lia.
    + intros [= <-].
      destruct (double_gt y dbl_0_5).
      * destruct (double_to_int _); simpl; try discriminate. intros [= <-].
        simpl. lia.
      * destruct (double_gt y dbl_0_25); intros [= <-]; simpl; lia.
Qed.

Lemma GetBestAction_policy_monotone_witness :
  rank (type (mkAction CALL 0 "")) <= rank (type (mkAction BET 66 "")).
Proof.
  eapply (GetBestAction_policy_monotone
            (winprob_of (set_tally toy_ai 900 3000))
            (winprob_of (set_tally toy_ai 2000 3000))
            _ _ toy_ai
            (set_action toy_ai (mkAction CALL 0 ""))
            (set_action toy_ai (mkAction BET 66 ""))).
  - reflexivity.
  - vm_compute. reflexivity.
  - reflexivity.
  - vm_compute. reflexivity.
  - vm_compute. discriminate.
  - vm_compute. reflexivity.
  - vm_compute. reflexivity.
Defined.

(** ** Loops that fill an array *)

(** A loop that writes [arr[i] = g(i)] for [i] from [lo] on puts the
    values read in place of the cells it runs over. *)
Lemma fill_loop {A : Type} (body : Z -> list A -> res (list A)) (g : Z -> option A)
      (cs : list A) :
  (forall i a, body i a = let* c := of_option (g i) in of_option (arr_set a i c)) ->
  forall (lo : nat) (arr : list A),
    (lo + length cs <= length arr)%nat ->
    (forall k c, cs !! k = Some c -> g (Z.of_nat (lo + k)) = Some c) ->
    for_loop (length cs) (Z.of_nat lo) body arr
    = Ret (take lo arr ++ cs ++ drop (lo + length cs) arr).
Proof.
  intros Hbody. induction cs as [|c cs IH]; intros lo arr Hlen Hg.
  - simpl. now rewrite Nat.add_0_r, take_drop.
  - simpl. rewrite Hbody.
    assert (Hg0 : g (Z.of_nat lo) = Some c).
    { rewrite <- (Hg O c eq_refl). f_equal. lia. }
    rewrite Hg0. simpl in Hlen. cbn [of_option res_bind].
    rewrite arr_set_Some by lia. cbn [of_option res_bind].
    replace (Z.of_nat lo + 1) with (Z.of_nat (S lo)) by lia.
    rewrite IH.
    + f_equal. rewrite Nat2Z.id.
      rewrite (take_S_r _ _ c) by (apply list_lookup_insert_eq; lia).
      rewrite take_insert_ge by lia. rewrite drop_insert_lt by lia.
      rewrite <- app_assoc. simpl.
      now replace (S (lo + length cs)) with (lo + S (length cs))%nat by lia.
    + rewrite length_insert. lia.
    + intros k c' Hk. specialize (Hg (S k) c' Hk).
      now replace (S lo + k)%nat with (lo + S k)%nat by lia.
Qed.

Lemma fill_range {A : Type} (body : Z -> list A -> res (list A)) (g : Z -> option A)
      (lo hi : Z) (arr cs : list A) :
  (forall i a, body i a = let* c := of_option (g i) in of_option (arr_set a i c)) ->
  0 <= lo <= hi ->
  hi <= Z.of_nat (length arr) ->
  length cs = Z.to_nat (hi - lo) ->
  (forall k c, cs !! k = Some c -> g (lo + Z.of_nat k) = Some c) ->
  for_range lo hi body arr
  = Ret (take (Z.to_nat lo) arr ++ cs ++ drop (Z.to_nat hi) arr).
Proof.
  intros Hbody Hlo Hhi Hcs Hg. unfold for_range. rewrite <- Hcs.
  replace lo with (Z.of_nat (Z.to_nat lo)) at 1 by lia.
  rewrite (fill_loop body g cs Hbody).
  - now replace (Z.to_nat lo + length cs)%nat with (Z.to_nat hi) by lia.
  - lia.
  - intros k c Hk. rewrite <- (Hg k c Hk). f_equal. lia.
Qed.

Section DrawLoop.

Context {host : Host}.
Hypothesis Hrand : rand_nonneg host.

(** A loop that writes [arr[i] = draw(...)] puts the cards drawn in place
    of the cells it runs over, and takes them out of the pool. *)
Lemma draw_loop (body : Z -> list Z * list Z * Z * World
                       -> res (list Z * list Z * Z * World)) :
  (forall i arr pool sz w,
      body i (arr, pool, sz, w)
      = let* (c, pool, sz, w) := draw pool sz w in
        let* arr := of_option (arr_set arr i c) in
        Ret (arr, pool, sz, w)) ->
  forall (n lo : nat) (arr pool : list Z) (sz : Z) (w : World),
    (lo + n <= length arr)%nat ->
    Z.of_nat n <= sz <= Z.of_nat (length pool) ->
    exists cs pool' w',
      for_loop n (Z.of_nat lo) body (arr, pool, sz, w)
      = Ret (take lo arr ++ cs ++ drop (lo + n) arr, pool', sz - Z.of_nat n, w') /\
      length cs = n /\
      length pool' = length pool /\
      Permutation (pool_of pool sz) (cs ++ pool_of pool' (sz - Z.of_nat n)).
Proof.
  intros Hbody. induction n as [|n IH]; intros lo arr pool sz w Hlen Hsz.
  - exists [], pool, w. simpl. rewrite Nat.add_0_r, take_drop, Z.sub_0_r. auto.
  - destruct (draw_spec Hrand pool sz w) as (c & pool1 & Hd & Hl1 & _ & Hp1); [lia|].
    destruct (IH (S lo) (<[lo := c]> arr) pool1 (sz - 1) (snd (rand w)))
      as (cs & pool2 & w2 & Hrun & Hlcs & Hl2 & Hp2);
      [rewrite length_insert; lia | lia |].
    exists (c :: cs), pool2, w2.
    cbn [for_loop]. rewrite Hbody, Hd. cbn [res_bind].
    rewrite arr_set_Some by lia. cbn [of_option res_bind].
    rewrite Nat2Z.id.
    replace (Z.of_nat lo + 1) with (Z.of_nat (S lo)) by lia. rewrite Hrun.
    replace (sz - 1 - Z.of_nat n) with (sz - Z.of_nat (S n)) in * by lia.
    split; [|split; [simpl; lia|split; [congruence|]]].
    + f_equal. f_equal. f_equal. f_equal.
      rewrite (take_S_r _ _ c) by (apply list_lookup_insert_eq; lia).
      rewrite take_insert_ge by lia. rewrite drop_insert_lt by lia.
      rewrite <- app_assoc. simpl.
      now replace (S (lo + n)) with (lo + S n)%nat by lia.
    + rewrite Hp1, Hp2. reflexivity.
Qed.

Lemma draw_range (body : Z -> list Z * list Z * Z * World
                        -> res (list Z * list Z * Z * World))
      (lo hi : Z) (arr pool : list Z) (sz : Z) (w : World) :
  (forall i arr pool sz w,
      body i (arr, pool, sz, w)
      = let* (c, pool, sz, w) := draw pool sz w in
        let* arr := of_option (arr_set arr i c) in
        Ret (arr, pool, sz, w)) ->
  0 <= lo <= hi ->
  hi <= Z.of_nat (length arr) ->
  hi - lo <= sz <= Z.of_nat (length pool) ->
  exists cs pool' w',
    for_range lo hi body (arr, pool, sz, w)
    = Ret (take (Z.to_nat lo) arr ++ cs ++ drop (Z.to_nat hi) arr,
           pool', sz - (hi - lo), w') /\
    length cs = Z.to_nat (hi - lo) /\
    length pool' = length pool /\
    Permutation (pool_of pool sz) (cs ++ pool_of pool' (sz - (hi - lo))).
Proof.
  intros Hbody Hlo Hhi Hsz. unfold for_range.
  destruct (draw_loop body Hbody (Z.to_nat (hi - lo)) (Z.to_nat lo) arr pool sz w)
    as (cs & pool' & w' & Hrun & Hlcs & Hlp & Hperm); [lia|lia|].
  exists cs, pool', w'.
  replace (Z.of_nat (Z.to_nat lo)) with lo in Hrun by lia.
  replace (Z.of_nat (Z.to_nat (hi - lo))) with (hi - lo) in * by lia.
  replace (Z.to_nat lo + Z.to_nat (hi - lo))%nat with (Z.to_nat hi) in Hrun by lia.
  auto.
Qed.

End DrawLoop.

(** ** The cards of a simulated game *)

Section Deal.

Context {host : Host}.
Hypothesis Hrand : rand_nonneg host.

(** The loop "Give each opponent their cards": each opponent gets
    [NUM_HAND] cards off the pool, then the board. *)
Lemma give_opponents
      (body : Z -> list (list Z) * list Z * Z * World
              -> res (list (list Z) * list Z * Z * World))
      (board : list Z) (n : Z) (opps0 : list (list Z))
      (pool1 : list Z) (sz1 : Z) (w1 : World) :
  (forall opp opponents pool sz w,
      body opp (opponents, pool, sz, w)
      = let* his := of_option (arr_get opponents opp) in
        let* (his, pool, decksize, w) :=
          for_range 0 NUM_HAND
            (fun i '(his, pool, decksize, w) =>
               let* (c, pool, decksize, w) := draw pool decksize w in
               let* his := of_option (arr_set his i c) in
               Ret (his, pool, decksize, w))
            (his, pool, sz, w) in
        let* his :=
          for_range NUM_HAND (NUM_COMMUNITY + NUM_HAND)
            (fun i his =>
               let* c := of_option (arr_get board (i - NUM_HAND)) in
               of_option (arr_set his i c))
            his in
        let* opponents := of_option (arr_set opponents opp his) in
        Ret (opponents, pool, decksize, w)) ->
  0 <= NUM_HAND ->
  Z.of_nat (length board) = NUM_COMMUNITY ->
  0 <= n <= Z.of_nat (length opps0) ->
  (forall j, (j < Z.to_nat n)%nat ->
             opps0 !! j = Some (replicate (Z.to_nat (NUM_HAND + NUM_COMMUNITY)) 0)) ->
  NUM_HAND * n <= sz1 <= Z.of_nat (length pool1) ->
  exists (holes : list (list Z)) (pool' : list Z) (w' : World),
    for_range 0 n body (opps0, pool1, sz1, w1)
    = Ret (map (fun h => h ++ board) holes ++ drop (Z.to_nat n) opps0,
           pool', sz1 - NUM_HAND * n, w') /\
    length holes = Z.to_nat n /\
    Forall (fun h => length h = Z.to_nat NUM_HAND) holes /\
    length pool' = length pool1 /\
    Permutation (pool_of pool1 sz1)
                (concat holes ++ pool_of pool' (sz1 - NUM_HAND * n)).
Proof.
  intros Hbody Hnh Hboard Hn Hopps Hsz.
  destruct (for_range_ret
              (fun i '(opps, pool, sz, w) =>
                 exists holes : list (list Z),
                   length holes = Z.to_nat i /\
                   Forall (fun h => length h = Z.to_nat NUM_HAND) holes /\
                   opps = map (fun h => h ++ board) holes ++ drop (Z.to_nat i) opps0 /\
                   length pool = length pool1 /\
                   sz = sz1 - NUM_HAND * i /\
                   Permutation (pool_of pool1 sz1) (concat holes ++ pool_of pool sz))
              body 0 n (opps0, pool1, sz1, w1))
    as ([[[opps pool] sz] w] & Hrun & holes & Hl & Hh & -> & Hp & -> & Hperm);
    [lia | | |].
  - exists []. simpl. repeat split; auto. lia.
  - intros j [[[opps pool] sz] w] Hj (holes & Hl & Hh & -> & Hp & -> & Hperm).
    rewrite Hbody.
    set (his0 := replicate (Z.to_nat (NUM_HAND + NUM_COMMUNITY)) 0).
    assert (Hj0 : opps0 !! Z.to_nat j = Some his0) by (apply Hopps; lia).
    assert (Hget : arr_get (map (fun h => h ++ board) holes ++ drop (Z.to_nat j) opps0) j
                   = Some his0).
    { unfold arr_get. destruct (Z.ltb_spec j 0); [lia|].
      rewrite lookup_app_r by (rewrite length_map; lia).
      rewrite length_map, Hl, Nat.sub_diag, lookup_drop, Nat.add_0_r. exact Hj0. }
    rewrite Hget. cbn [of_option res_bind].
    assert (Hlen0 : length his0 = Z.to_nat (NUM_HAND + NUM_COMMUNITY))
      by apply length_replicate.
    match goal with
    | |- context [for_range 0 NUM_HAND ?b ?s] =>
        destruct (draw_range Hrand b 0 NUM_HAND his0 pool (sz1 - NUM_HAND * j) w)
          as (cs & pool2 & w2 & Hdraw & Hlcs & Hlp2 & Hperm2);
          [intros; reflexivity | lia | lia | nia |]
    end.
    rewrite Hdraw. cbn [res_bind].
    rewrite Z.sub_0_r in *. change (Z.to_nat 0) with O. rewrite take_0. cbn [app].
    assert (Hlen1 : length (cs ++ drop (Z.to_nat NUM_HAND) his0)
                    = Z.to_nat (NUM_HAND + NUM_COMMUNITY)).
    { rewrite length_app, length_drop. lia. }
    rewrite (fill_range _ (fun i => arr_get board (i - NUM_HAND)) NUM_HAND
                        (NUM_COMMUNITY + NUM_HAND) _ board);
      [|intros; reflexivity | lia | lia | lia |].
    2:{ intros k c Hk. unfold arr_get.
        destruct (Z.ltb_spec (NUM_HAND + Z.of_nat k - NUM_HAND) 0); [lia|].
        rewrite <- Hk. f_equal. lia. }
    cbn [res_bind].
    rewrite take_app_length' by lia.
    rewrite (drop_ge (cs ++ _)) by lia. rewrite app_nil_r.
    rewrite arr_set_Some.
    2:{ rewrite length_app, length_map, length_drop. lia. }
    cbn [of_option res_bind]. eexists. split; [reflexivity|].
    exists (holes ++ [cs]).
    rewrite length_app, Forall_app, Forall_singleton, map_app, concat_app.
    simpl. rewrite app_nil_r.
    split; [lia|]. split; [auto|]. split; [|split; [lia|split; [lia|]]].
    + rewrite insert_app_r_alt by (rewrite length_map; lia).
      rewrite length_map, Hl, Nat.sub_diag.
      rewrite (drop_S _ _ _ Hj0). simpl. rewrite <- app_assoc. simpl.
      do 3 f_equal. lia.
    + rewrite Hperm, Hperm2, <- app_assoc.
      now replace (sz1 - NUM_HAND * j - NUM_HAND) with (sz1 - NUM_HAND * (j + 1)) by lia.
  - exists holes, pool, w. rewrite Hrun. auto.
Qed.

End Deal.

Section DealCards.

Context {host : Host}.
Hypothesis Hrand : rand_nonneg host.

Lemma for_range_clip {St : Type} (body : Z -> St -> res St) (hi : Z) (s : St) :
  for_range 0 hi body s = for_range 0 (Z.max 0 hi) body s.
Proof. unfold for_range. f_equal. lia. Qed.

Lemma deal_closed (game : GameState) (w : World) :
  well_formed game ->
  exists (board : list Z) (holes : list (list Z)) (rest : list Z) (w' : World),
    deal game w
    = Ret (take (Z.to_nat NUM_HAND) (hand game)
             ++ take (Z.to_nat (communitysize game)) (community game) ++ board,
           map (fun h => h ++ take (Z.to_nat (communitysize game)) (community game)
                           ++ board) holes
             ++ replicate (Z.to_nat MAX_OPPONENTS - Z.to_nat (num_opponents game)) [],
           w') /\
    length board = Z.to_nat (NUM_COMMUNITY - communitysize game) /\
    length holes = Z.to_nat (num_opponents game) /\
    Forall (fun h => length h = Z.to_nat NUM_HAND) holes /\
    Permutation (unseen_cards game) (board ++ concat holes ++ rest).
Proof.
  intros (Hnh & Hnd & Hflags & Hcsz & Hcom & Hmax & Hhand & Hneed).
  set (n := Z.max 0 (num_opponents game)) in *.
  set (known := take (Z.to_nat (communitysize game)) (community game)).
  assert (Hknown : length known = Z.to_nat (communitysize game)).
  { unfold known. rewrite length_take. lia. }
  unfold deal. cbv zeta.
  (* opponents[i] = malloc(...) *)
  rewrite for_range_clip. fold n.
  match goal with
  | |- context [for_range ?lo ?hi ?b ?s] =>
      rewrite (fill_range b (fun _ => Some (replicate (Z.to_nat (NUM_HAND + NUM_COMMUNITY)) 0))
                          lo hi s
                          (replicate (Z.to_nat n)
                                     (replicate (Z.to_nat (NUM_HAND + NUM_COMMUNITY)) 0)));
        [|intros; reflexivity | lia | rewrite length_replicate; lia
         |rewrite length_replicate; f_equal; lia
         |intros k c Hk; apply lookup_replicate in Hk as [-> _]; reflexivity]
  end.
  cbn [res_bind]. change (Z.to_nat 0) with O. rewrite take_0. cbn [app].
  rewrite drop_replicate.
  (* the deck *)
  destruct (fill_deck_closed game) as [-> Hunseen]; [lia|lia|].
  cbn [res_bind].
  set (unseen := unseen_cards game) in *.
  set (pool0 := unseen ++ replicate (52 - length unseen) 0).
  assert (Hpool0 : pool_of pool0 (Z.of_nat (length unseen)) = unseen).
  { unfold pool_of, pool0. rewrite Nat2Z.id. apply take_app_length. }
  assert (Hlen0 : length pool0 = 52%nat).
  { unfold pool0. rewrite length_app, length_replicate. lia. }
  (* the known community cards *)
  match goal with
  | |- context [for_range ?lo ?hi ?b ?s] =>
      rewrite (fill_range b (fun i => arr_get (community game) i) lo hi s known);
        [|intros; reflexivity | lia | rewrite length_replicate; lia
         |rewrite Hknown; f_equal; lia |]
  end.
  2:{ intros k c Hk. unfold known in Hk. apply lookup_take_Some in Hk as [Hk Hlt].
      unfold arr_get. destruct (Z.ltb_spec (0 + Z.of_nat k) 0); [lia|].
      rewrite <- Hk. f_equal. lia. }
  cbn [res_bind]. change (Z.to_nat 0) with O. rewrite take_0. cbn [app].
  rewrite drop_replicate.
  (* the rest of the community cards *)
  match goal with
  | |- context [for_range ?lo ?hi ?b ?s] =>
      destruct (draw_range Hrand b (communitysize game) NUM_COMMUNITY
                           (known ++ replicate (Z.to_nat NUM_COMMUNITY
                                                - Z.to_nat (communitysize game)) 0)
                           pool0 (Z.of_nat (length unseen)) w)
        as (board & pool1 & w1 & Hdraw & Hlboard & Hlen1 & Hperm1);
        [intros; reflexivity | lia
         |rewrite length_app, length_replicate; lia | nia |]
  end.
  rewrite Hdraw. cbn [res_bind].
  rewrite take_app_length' by lia.
  rewrite drop_ge by (rewrite length_app, length_replicate; lia).
  rewrite app_nil_r. rewrite Hpool0 in Hperm1.
  set (sz1 := Z.of_nat (length unseen) - (NUM_COMMUNITY - communitysize game)) in *.
  (* the opponents *)
  rewrite for_range_clip. fold n.
  match goal with
  | |- context [for_range ?lo ?hi ?b ?s] =>
      destruct (give_opponents Hrand b (known ++ board) n
                  (replicate (Z.to_nat n)
                             (replicate (Z.to_nat (NUM_HAND + NUM_COMMUNITY)) 0)
                     ++ replicate (Z.to_nat MAX_OPPONENTS - Z.to_nat n) [])
                  pool1 sz1 w1)
        as (holes & pool2 & w2 & Hopp & Hlholes & Hholes & Hlen2 & Hperm2);
        [intros; reflexivity | lia | rewrite length_app; lia
         |rewrite length_app, !length_replicate; lia | | nia |]
  end.
  { intros j Hj. rewrite lookup_app_l by (rewrite length_replicate; lia).
    now apply lookup_replicate_2. }
  rewrite Hopp. cbn [res_bind].
  rewrite drop_app_length' by (rewrite length_replicate; lia).
  (* my cards *)
  match goal with
  | |- context [for_range ?lo ?hi ?b ?s] =>
      rewrite (fill_range b (fun i => arr_get (hand game) i) lo hi s
                          (take (Z.to_nat NUM_HAND) (hand game)));
        [|intros; reflexivity | lia | rewrite length_replicate; lia
         |rewrite length_take; lia |]
  end.
  2:{ intros k c Hk. apply lookup_take_Some in Hk as [Hk Hlt].
      unfold arr_get. destruct (Z.ltb_spec (0 + Z.of_nat k) 0); [lia|].
      rewrite <- Hk. f_equal. lia. }
  cbn [res_bind]. change (Z.to_nat 0) with O. rewrite take_0. cbn [app].
  match goal with
  | |- context [for_range ?lo ?hi ?b ?s] =>
      rewrite (fill_range b (fun i => arr_get (known ++ board) (i - NUM_HAND))
                          lo hi s (known ++ board));
        [|intros; reflexivity | lia
         |rewrite length_app, length_take, length_drop, length_replicate; lia
         |rewrite length_app; lia |]
  end.
  2:{ intros k c Hk. unfold arr_get.
      destruct (Z.ltb_spec (NUM_HAND + Z.of_nat k - NUM_HAND) 0); [lia|].
      rewrite <- Hk. f_equal. lia. }
  cbn [res_bind].
  rewrite take_app_length' by (rewrite length_take; lia).
  rewrite (drop_ge (take _ _ ++ _))
    by (rewrite length_app, length_take, length_drop, length_replicate; lia).
  rewrite app_nil_r.
  exists board, holes, (pool_of pool2 (sz1 - NUM_HAND * n)), w2.
  split; [|split; [lia|split; [lia|split; [exact Hholes|]]]].
  - now replace (Z.to_nat n) with (Z.to_nat (num_opponents game)) by (unfold n; lia).
  - rewrite Hperm1, Hperm2. reflexivity.
Qed.

End DealCards.

Lemma toy_rand_nonneg : rand_nonneg toy_host.
Proof. intros w. simpl. apply Z.mod_pos_bound. lia. Qed.

Lemma toy_game_well_formed : @well_formed toy_host toy_game.
Proof. unfold well_formed. vm_compute. intuition discriminate. Qed.

(** X11.  On a well-formed game state the simulator deals without leaving
    its arrays or emptying the deck: the board is the known community
    cards and then new ones, the AI has its hole cards and the board,
    every opponent has [NUM_HAND] cards and the same board; the new board
    cards and the opponents' cards are unseen cards, none dealt twice. *)
Theorem deal_distinct_unseen :
  forall (host : Host) (game : GameState) (w : World),
    rand_nonneg host ->
    well_formed game ->
    exists (board : list Z) (holes : list (list Z)) (w' : World),
      deal game w
      = Ret (take (Z.to_nat NUM_HAND) (hand game)
               ++ take (Z.to_nat (communitysize game)) (community game) ++ board,
             map (fun h => h ++ take (Z.to_nat (communitysize game)) (community game)
                             ++ board) holes
               ++ replicate (Z.to_nat MAX_OPPONENTS - Z.to_nat (num_opponents game)) [],
             w') /\
      length board = Z.to_nat (NUM_COMMUNITY - communitysize game) /\
      length holes = Z.to_nat (num_opponents game) /\
      Forall (fun h => length h = Z.to_nat NUM_HAND) holes /\
      NoDup (board ++ concat holes) /\
      (forall c : Z, In c (board ++ concat holes) -> In c (unseen_cards game)).
Proof.
  intros host game w Hrand Hwf.
  destruct (deal_closed Hrand game w Hwf)
    as (board & holes & rest & w' & Hdeal & Hlb & Hlh & Hholes & Hperm).
  exists board, holes, w'.
  assert (Hnd : NoDup (unseen_cards game)) by apply NoDup_filter, NoDup_seqZ.
  rewrite Hperm, app_assoc in Hnd. apply NoDup_app in Hnd. destruct Hnd as (Hnd & _ & _).
  repeat (split; [assumption|]).
  intros c Hc. eapply Permutation_in; [symmetry; exact Hperm|].
  rewrite app_assoc. apply in_or_app. now left.
Qed.

Lemma deal_distinct_unseen_witness :
  exists (board : list Z) (holes : list (list Z)) (w' : nat),
    @deal toy_host toy_game 0%nat
    = Ret ([1; 14] ++ [2; 3; 4] ++ board,
           map (fun h => h ++ [2; 3; 4] ++ board) holes ++ replicate (10 - 1) [],
           w') /\
    length board = 2%nat /\
    length holes = 1%nat /\
    Forall (fun h => length h = 2%nat) holes /\
    NoDup (board ++ concat holes) /\
    (forall c : Z, In c (board ++ concat holes) -> In c (@unseen_cards toy_host toy_game)).
Proof.
  exact (deal_distinct_unseen toy_host toy_game 0%nat toy_rand_nonneg
           toy_game_well_formed).
Defined.

(** X12.  On a well-formed game state a simulated game is defined: it
    returns a win when the AI's score is above every opponent score and
    above 0, and a loss otherwise. *)
Theorem SimulateSingleGame_defined :
  forall (host : Host) (ai : PokerAI) (w : World),
    rand_nonneg host ->
    well_formed (game ai) ->
    exists (me : list Z) (opponents : list (list Z)) (w' : World),
      deal (game ai) w = Ret (me, opponents, w') /\
      let numcards := NUM_HAND + NUM_COMMUNITY in
      let best :=
        max_score (opponent_scores opponents (num_opponents (game ai)) numcards) in
      SimulateSingleGame ai w
      = Ret (if score_of numcards me >? best then AI_WIN else AI_LOSE, w').
Proof.
  intros host ai w Hrand Hwf.
  destruct (deal_closed Hrand (game ai) w Hwf)
    as (board & holes & rest & w' & Hdeal & Hlb & Hlh & Hholes & Hperm).
  eexists _, _, w'. split; [exact Hdeal|].
  unfold SimulateSingleGame. rewrite Hdeal. cbn [res_bind]. cbv zeta.
  rewrite BestOpponentHand_closed.
  - cbn [res_bind]. unfold score_of. now destruct (_ >? _).
  - rewrite length_app, length_map, length_replicate.
    destruct Hwf as (_ & _ & _ & _ & _ & Hmax & _). lia.
Qed.

Lemma SimulateSingleGame_defined_witness :
  exists (me : list Z) (opponents : list (list Z)) (w' : nat),
    @deal toy_host toy_game 0%nat = Ret (me, opponents, w') /\
    @SimulateSingleGame toy_host toy_ai 0%nat
    = Ret (if @score_of toy_host 7 me
              >? max_score (@opponent_scores toy_host opponents 1 7)
           then AI_WIN else AI_LOSE, w').
Proof.
  exact (SimulateSingleGame_defined toy_host toy_ai 0%nat toy_rand_nonneg
           toy_game_well_formed).
Defined.

Lemma lookup_map {A B : Type} (f : A -> B) (l : list A) (i : nat) :
  map f l !! i = option_map f (l !! i).
Proof.
  revert i. induction l as [|x l IH]; intros [|i]; simpl; auto.
Qed.

(** X13.  When the game state holds the AI's [NUM_HAND] hole cards and
    the known community cards without a repeat and has marked them as
    used, no hand that is scored holds a card twice, and no opponent holds
    a card of the AI. *)
Theorem dealt_hands_distinct :
  forall (host : Host) (game : GameState) (w w' : World)
         (me : list Z) (opponents : list (list Z)),
    rand_nonneg host ->
    well_formed game ->
    known_marked game ->
    NoDup (known_cards game) ->
    Z.of_nat (length (hand game)) = NUM_HAND ->
    deal game w = Ret (me, opponents, w') ->
    NoDup me /\
    forall (i : nat) (his : list Z),
      (i < Z.to_nat (num_opponents game))%nat ->
      opponents !! i = Some his ->
      NoDup his /\
      forall c : Z, In c (take (Z.to_nat NUM_HAND) his) -> ~ In c (hand game).
Proof.
  intros host game w w' me opponents Hrand Hwf Hmarked Hknown Hhand Hdeal.
  destruct (deal_closed Hrand game w Hwf)
    as (board & holes & rest & w2 & Hdeal2 & Hlb & Hlh & Hholes & Hperm).
  rewrite Hdeal in Hdeal2. injection Hdeal2 as -> -> ->.
  assert (Hnd : NoDup (unseen_cards game)) by apply NoDup_filter, NoDup_seqZ.
  rewrite Hperm, app_assoc in Hnd. apply NoDup_app in Hnd. destruct Hnd as (Hnd & _ & _).
  apply NoDup_app in Hnd. destruct Hnd as (Hboard & Hsep & Hconcat).
  assert (Hunseen : forall c, c ∈ board ++ concat holes -> c ∉ known_cards game).
  { intros c Hc Hk. rewrite list_elem_of_In in Hc, Hk.
    assert (Hu : In c (unseen_cards game)).
    { eapply Permutation_in; [symmetry; exact Hperm|].
      rewrite app_assoc. apply in_or_app. now left. }
    unfold unseen_cards in Hu. rewrite <- list_elem_of_In in Hu.
    apply list_elem_of_filter in Hu as [Hu _].
    specialize (Hmarked c Hk). unfold unseen in Hu. congruence. }
  rewrite take_ge in * by lia.
  unfold known_cards in *.
  set (known := take (Z.to_nat (communitysize game)) (community game)) in *.
  split.
  - rewrite app_assoc. apply NoDup_app. split; [exact Hknown|]. split; [|exact Hboard].
    intros c Hk Hb. apply (Hunseen c); [|exact Hk]. apply elem_of_app. now left.
  - intros i his Hi Hhis.
    rewrite lookup_app_l in Hhis by (rewrite length_map; lia).
    rewrite lookup_map in Hhis.
    destruct (holes !! i) as [hole|] eqn:Hhole; try discriminate.
    injection Hhis as <-.
    assert (Hin : forall c, c ∈ hole -> c ∈ concat holes).
    { intros c Hc. rewrite list_elem_of_In. apply in_concat. exists hole.
      rewrite <- !list_elem_of_In. split; auto.
      eapply list_elem_of_lookup_2; eauto. }
    assert (Hlen : length hole = Z.to_nat NUM_HAND).
    { rewrite Forall_forall in Hholes. apply Hholes.
      eapply list_elem_of_lookup_2; eauto. }
    assert (Hhnd : NoDup hole).
    { clear - Hconcat Hhole. revert i Hhole.
      induction holes as [|h holes IH]; intros [|i] Hi; simpl in *; try discriminate.
      - injection Hi as ->. apply NoDup_app in Hconcat. tauto.
      - apply NoDup_app in Hconcat. destruct Hconcat as (_ & _ & ?). eauto. }
    split.
    + apply NoDup_app. split; [exact Hhnd|]. split.
      * intros c Hc Hkb. apply elem_of_app in Hkb as [Hk|Hb].
        -- apply (Hunseen c).
           ++ apply elem_of_app. right. now apply Hin.
           ++ apply elem_of_app. now right.
        -- apply (Hsep c Hb). now apply Hin.
      * apply NoDup_app. split; [apply NoDup_app in Hknown; tauto|].
        split; [|exact Hboard].
        intros c Hk Hb. apply (Hunseen c).
        -- apply elem_of_app. now left.
        -- apply elem_of_app. now right.
    + intros c Hc Hmine. rewrite take_app_length' in Hc by lia.
      rewrite <- list_elem_of_In in Hc, Hmine.
      apply (Hunseen c).
      * apply elem_of_app. right. now apply Hin.
      * apply elem_of_app. now left.
Qed.

Lemma toy_deal :
  @deal toy_host toy_game 0%nat
  = Ret ([1; 14; 2; 3; 4; 19; 26],
         [17; 16; 2; 3; 4; 19; 26] :: replicate 9 [], 4%nat).
Proof. vm_compute. reflexivity. Qed.

Lemma dealt_hands_distinct_witness :
  NoDup [1; 14; 2; 3; 4; 19; 26] /\
  forall (i : nat) (his : list Z),
    (i < 1)%nat ->
    ([17; 16; 2; 3; 4; 19; 26] :: replicate 9 []) !! i = Some his ->
    NoDup his /\
    forall c : Z, In c (take 2 his) -> ~ In c [1; 14].
Proof.
  apply (dealt_hands_distinct toy_host toy_game 0%nat 4%nat
           [1; 14; 2; 3; 4; 19; 26]
           ([17; 16; 2; 3; 4; 19; 26] :: replicate 9 [])
           toy_rand_nonneg toy_game_well_formed toy_game_known_marked).
  - apply (bool_decide_unpack _). vm_compute. exact I.
  - reflexivity.
  - exact toy_deal.
Defined.

(** ** A clock that does not reach the timeout *)

Section Slow.

Context {host : Host}.

Lemma step_in_loop (ai ai' : PokerAI) (w w' : World) (th th' : Thread Timer) :
  within_timeout host (timeout ai) ->
  SimulateGames_step ai w th = Ret (ai', w', th') ->
  in_loop th ->
  in_loop th' /\ timeout ai' = timeout ai.
Proof.
  intros Hslow. destruct th as [|k|k|k]; simpl; try tauto.
  - destruct (StartTimer w). intros [= <- <- <-] _. simpl. auto.
  - destruct (Z.rem (simulated k) 1000 =? 0).
    + specialize (Hslow (timer k) w).
      destruct (GetElapsedTime (timer k) w) as [t w1]. simpl in Hslow.
      destruct (Z.gtb_spec t (timeout ai)); [lia|].
      destruct (play ai w1 _) as [[w2 k']| |]; simpl; try discriminate.
      intros [= <- <- <-] _. simpl. auto.
    + destruct (play ai w k) as [[w2 k']| |]; simpl; try discriminate.
      intros [= <- <- <-] _. simpl. auto.
Qed.

Lemma in_loop_run (sched : list nat) (ai : PokerAI) (w : World)
      (e : Engine World Timer) :
  within_timeout host (timeout ai) ->
  run sched (spawn ai w) = Ret e ->
  Forall in_loop (eng_threads e).
Proof.
  intros Hslow Hrun.
  apply (run_inv (fun e => timeout (eng_ai e) = timeout ai /\
                           Forall in_loop (eng_threads e)))
    with (sched := sched) (e := spawn ai w); auto.
  - intros i e1 e2 [Ht Hths] Hstep.
    apply step_inv in Hstep as [[_ ->]|(th & ai' & w' & th' & Hth & Hs & ->)];
      [now split|].
    simpl. rewrite <- Ht in Hslow.
    destruct (step_in_loop _ _ _ _ _ _ Hslow Hs) as [Hin Ht'].
    + exact (Forall_lookup_1 _ _ _ _ Hths Hth).
    + split; [congruence|]. now apply Forall_insert.
  - split; [reflexivity|]. simpl. apply Forall_replicate. exact I.
Qed.

End Slow.

(** X14.  A worker stops by itself only: while no clock reading is beyond
    the timeout, no thread leaves its loop, whatever the schedule, and
    [SpawnMonteCarloThreads] with a thread to wait for does not return. *)
Theorem no_exit_within_timeout :
  forall (host : Host) (sched : list nat) (ai : PokerAI) (w : World),
    within_timeout host (timeout ai) ->
    (forall e : Engine World Timer,
        run sched (spawn ai w) = Ret e -> Forall in_loop (eng_threads e)) /\
    (0 < num_threads ai ->
     forall r : PokerAI * World, SpawnMonteCarloThreads sched ai w <> Ret r).
Proof.
  intros host sched ai w Hslow. split.
  - intros e. now apply in_loop_run.
  - intros Hn r. unfold SpawnMonteCarloThreads.
    destruct (run sched (spawn ai w)) as [e| |] eqn:Hrun; simpl; try discriminate.
    pose proof (in_loop_run _ _ _ _ Hslow Hrun) as Hin.
    pose proof (frame_inv_run _ _ _ _ Hrun) as (_ & _ & _ & _ & Hlen).
    destruct (eng_threads e) as [|th ths]; simpl in *; [lia|].
    apply Forall_cons in Hin as [Hth _].
    destruct th; simpl in *; try tauto; discriminate.
Qed.

Lemma no_exit_within_timeout_witness :
  within_timeout toy_frozen (timeout toy_ai) /\
  forall r : PokerAI * nat,
    @SpawnMonteCarloThreads toy_frozen [0; 0; 1; 0; 1]%nat toy_ai 0%nat <> Ret r.
Proof.
  assert (Hslow : within_timeout toy_frozen (timeout toy_ai))
    by (intros tm w; simpl; lia).
  split; [exact Hslow|].
  apply (proj2 (no_exit_within_timeout toy_frozen [0; 0; 1; 0; 1]%nat toy_ai 0%nat
                  Hslow)).
  simpl. lia.
Defined.
